(** * CacheFlow: the Sized-Recency (LRU) and Lazy-Expiry (TTL) caches

    A shallow embedding of [lru/lru.go], [ttlcache/ttlcache.go] and
    [cache/cache.go], and the properties of the specification proved (or
    refuted) on it.

    Conventions.
    - Go's [int64] is a [Z] together with its wrap-around [wrap64]; every
      arithmetic operation of the source on an [int64] is followed by
      [wrap64].
    - A Go [map[string]T] is a [gmap string T].
    - A [*list.Element] is an address ([nat]); the list of
      [container/list] is the sequence of its elements, front first.
    - [time.Now().UnixNano()] is an argument [now] of the operations that
      read the clock. *)

From Stdlib Require Import ZArith Lia.
From stdpp Require Import base gmap list strings fin_maps.

Local Open Scope Z_scope.

(** ** 64-bit signed integers *)

Definition min_int64 : Z := - 2 ^ 63.
Definition max_int64 : Z := 2 ^ 63 - 1.

(** The values of type [int64]. *)
Definition int64 (z : Z) : Prop := min_int64 ≤ z ≤ max_int64.

(** Two's complement reduction of a mathematical integer to [int64]. *)
Definition wrap64 (z : Z) : Z := (z + 2 ^ 63) `mod` 2 ^ 64 - 2 ^ 63.

Definition wrap64_int64 z : int64 (wrap64 z).
Proof.
  unfold int64, wrap64, min_int64, max_int64.
  pose proof (Z.mod_pos_bound (z + 2 ^ 63) (2 ^ 64)). lia.
Qed.

Definition int64_8 : int64 8.
Proof. unfold int64, min_int64, max_int64. lia. Qed.

(** ** Package [cache]: the contract of stored values *)

Module cache.

(** [type Value interface { Size() int64 }]: a pure size query whose result
    is an [int64]. *)
Class Value (V : Type) := {
  Size : V → Z;
  Size_int64 : ∀ v, int64 (Size v)
}.

End cache.

(** ** Package [main]: the value type of the demonstration *)

(** [type IntValue int64]. *)
Inductive IntValue := IntVal (n : Z).

(** [func (i IntValue) Size() int64 { return int64(unsafe.Sizeof(i)) }]:
    an [int64] occupies eight bytes. *)
#[export] Instance IntValue_Value : cache.Value IntValue :=
  {| cache.Size := λ _, 8; cache.Size_int64 := λ _, int64_8 |}.

(** A value that reports the size it was built with (reduced to [int64]),
    as a user-defined implementation of [cache.Value] may. *)
Inductive Blob := blob (n : Z).

#[export] Instance Blob_Value : cache.Value Blob :=
  {| cache.Size := λ b, match b with blob n => wrap64 n end;
     cache.Size_int64 := λ b, match b with blob n => wrap64_int64 n end |}.

(** ** Go's [container/list], as [lru.go] uses it

    The list is the sequence of its elements, front (oldest) first.  An
    element is a heap node: it has an address, under which the table of the
    cache refers to it, and a [Value]. *)

Module container_list.
Section container_list.
Context {A : Type}.

Record Element := mkElement { addr : nat; Value : A }.

Definition List := list Element.

(** [list.New()] *)
Definition New : List := [].

(** [l.Front()]: the first element, or [nil]. *)
Definition Front (l : List) : option Element := head l.

(** The [Value] of the element at address [e], when it is in the list. *)
Fixpoint find (e : nat) (l : List) : option A :=
  match l with
  | [] => None
  | x :: l' => if decide (addr x = e) then Some (Value x) else find e l'
  end.

(** An address no element of the list has: where a new node is allocated. *)
Definition fresh_addr (l : List) : nat := S (max_list (addr <$> l)).

(** [l.PushBack(v)]: a new element at the back; returns the list and the
    address of the element. *)
Definition PushBack (v : A) (l : List) : List * nat :=
  let e := fresh_addr l in (l ++ [mkElement e v], e).

(** [l.Remove(e)]: unlinks the element at address [e]; nothing happens when
    it is not in the list. *)
Fixpoint Remove (e : nat) (l : List) : List :=
  match l with
  | [] => []
  | x :: l' => if decide (addr x = e) then l' else x :: Remove e l'
  end.

(** [l.MoveToBack(e)]: nothing happens when [e] is not in the list. *)
Definition MoveToBack (e : nat) (l : List) : List :=
  match find e l with
  | Some v => Remove e l ++ [mkElement e v]
  | None => l
  end.

(** An assignment through the pointer [e.Value]: the element at address [e]
    now holds [v]. *)
Fixpoint set_Value (e : nat) (v : A) (l : List) : List :=
  match l with
  | [] => []
  | x :: l' =>
      if decide (addr x = e) then mkElement e v :: l'
      else x :: set_Value e v l'
  end.

End container_list.
Global Arguments Element : clear implicits.
Global Arguments List : clear implicits.
End container_list.

(** ** Package [lru]: the Sized-Recency cache *)

Module lru.
Section lru.
Context {V : Type} `{!cache.Value V}.

(** [type item struct { key string; value cache.Value; size int64 }] *)
Record item := mkItem {
  item_key : string;
  item_value : V;
  item_size : Z
}.

(** [type LRUCache struct { capacity, size int64; ls *list.List;
    table map[string]*list.Element }] *)
Record LRUCache := mkLRUCache {
  capacity : Z;
  size : Z;
  ls : container_list.List item;
  table : gmap string nat
}.

(** [func New(capacity int64) *LRUCache] *)
Definition New (capacity : Z) : LRUCache :=
  {| capacity := capacity; size := 0;
     ls := container_list.New; table := ∅ |}.

(** The loop of [evictLRU], on the fields it reads and writes.  The match
    is [c.ls.Front()]; every iteration unlinks that element, whose removal
    leaves [rest], so the loop is a recursion on the list. *)
Fixpoint evict_loop (cap sz : Z) (l : container_list.List item)
    (tbl : gmap string nat) : Z * container_list.List item * gmap string nat :=
  if bool_decide (sz > cap) then
    match l with
    | [] => (sz, l, tbl)
    | front :: rest =>
        let it := container_list.Value front in
        evict_loop cap (wrap64 (sz - item_size it)) rest
          (delete (item_key it) tbl)
    end
  else (sz, l, tbl).

(** [func (c *LRUCache) evictLRU()] *)
Definition evictLRU (c : LRUCache) : LRUCache :=
  let '(sz, l, tbl) := evict_loop (capacity c) (size c) (ls c) (table c) in
  {| capacity := capacity c; size := sz; ls := l; table := tbl |}.

(** The two branches of [Put] (lines 34 to 50), before the eviction pass.
    A table entry always designates an element of [c.ls] (see
    [same_entries]); for a pointer to an element that is no longer in the
    list, which Go would still read, the model leaves the cache as it is. *)
Definition Put_entry (c : LRUCache) (key : string) (value : V) : LRUCache :=
  match table c !! key with
  | Some entry =>
      match container_list.find entry (ls c) with
      | Some it =>
          let it' := {| item_key := item_key it; item_value := value;
                        item_size := cache.Size value |} in
          {| capacity := capacity c;
             size := wrap64 (size c + wrap64 (cache.Size value - item_size it));
             ls := container_list.MoveToBack entry
                     (container_list.set_Value entry it' (ls c));
             table := table c |}
      | None => c
      end
  | None =>
      let it := {| item_key := key; item_value := value;
                   item_size := cache.Size value |} in
      let '(l, e) := container_list.PushBack it (ls c) in
      {| capacity := capacity c;
         size := wrap64 (size c + item_size it);
         ls := l;
         table := <[key := e]> (table c) |}
  end.

(** [func (c *LRUCache) Put(key string, value cache.Value)] *)
Definition Put (c : LRUCache) (key : string) (value : V) : LRUCache :=
  evictLRU (Put_entry c key value).

(** [func (c *LRUCache) Get(key string) (cache.Value, bool)]: the cache
    after the call, and [Some value] for [(value, true)], [None] for
    [(nil, false)].  As in [Put_entry], a table entry designates an element
    of [c.ls]; the model leaves the other case as a miss. *)
Definition Get (c : LRUCache) (key : string) : LRUCache * option V :=
  match table c !! key with
  | None => (c, None)
  | Some entry =>
      match container_list.find entry (ls c) with
      | Some it =>
          ({| capacity := capacity c; size := size c;
              ls := container_list.MoveToBack entry (ls c);
              table := table c |},
           Some (item_value it))
      | None => (c, None)
      end
  end.

(** [func (c *LRUCache) List() []map[string]cache.Value]: one singleton
    map, here a pair, for each entry of the table, in the order in which
    the table is traversed.  The cache is not modified. *)
Definition List (c : LRUCache) : list (string * V) :=
  omap (λ '(key, entry),
          (λ it, (key, item_value it)) <$> container_list.find entry (ls c))
       (map_to_list (table c)).

(** *** Sequences of operations *)

Inductive op := OpPut (key : string) (value : V) | OpGet (key : string).

Definition step (c : LRUCache) (o : op) : LRUCache :=
  match o with
  | OpPut key value => Put c key value
  | OpGet key => (Get c key).1
  end.

Definition run (c : LRUCache) (ops : list op) : LRUCache := foldl step c ops.

(** *** The vocabulary of the properties *)

(** The keys of the list, oldest first. *)
Definition keys (l : container_list.List item) : list string :=
  (λ x, item_key (container_list.Value x)) <$> l.

(** The entries of the list, oldest first. *)
Definition entries (l : container_list.List item) : list (string * V) :=
  (λ x, (item_key (container_list.Value x),
         item_value (container_list.Value x))) <$> l.

(** The sum of the recorded sizes, as a mathematical integer. *)
Definition total (l : container_list.List item) : Z :=
  foldr (λ x s, item_size (container_list.Value x) + s) 0 l.

(** The table that indexes every element of the list under its key. *)
Definition index_of (l : container_list.List item) : gmap string nat :=
  list_to_map
    ((λ x, (item_key (container_list.Value x), container_list.addr x)) <$> l).

(** The table and the list hold the same entries, without duplicates: no
    two elements share an address or a key, and the table maps a key to an
    address exactly when the element at that address is in the list and has
    that key. *)
Definition same_entries (c : LRUCache) : Prop :=
  NoDup (container_list.addr <$> ls c) ∧ NoDup (keys (ls c)) ∧
  table c = index_of (ls c).

(** Consistency, with the sum of the sizes taken as it is: the field
    [size], an [int64], is that sum. *)
Definition consistent_exact (c : LRUCache) : Prop :=
  same_entries c ∧ size c = total (ls c) ∧ int64 (size c).

(** Consistency, with the sum of the sizes taken in [int64]. *)
Definition consistent (c : LRUCache) : Prop :=
  same_entries c ∧ size c = wrap64 (total (ls c)).

(** The size recorded for [key]: the contribution of its entry to the
    running total, zero when the key is not present. *)
Definition recorded_size (c : LRUCache) (key : string) : Z :=
  match table c !! key ≫= (λ entry, container_list.find entry (ls c)) with
  | Some it => item_size it
  | None => 0
  end.

(** Every recorded size is non-negative. *)
Definition sizes_nonneg (l : container_list.List item) : Prop :=
  Forall (λ x, 0 ≤ item_size (container_list.Value x)) l.

(** The state in which the capacity bound is kept: the field [size] is the
    sum of the recorded sizes, none of them negative, and the sum is within
    the capacity. *)
Definition bounded (cap : Z) (c : LRUCache) : Prop :=
  consistent_exact c ∧ sizes_nonneg (ls c) ∧
  total (ls c) ≤ cap ∧ capacity c = cap.

#[export] Instance int64_dec z : Decision (int64 z).
Proof. unfold int64. apply _. Defined.

#[export] Instance same_entries_dec c : Decision (same_entries c).
Proof. unfold same_entries. apply _. Defined.

#[export] Instance consistent_exact_dec c : Decision (consistent_exact c).
Proof. unfold consistent_exact. apply _. Defined.

#[export] Instance consistent_dec c : Decision (consistent c).
Proof. unfold consistent. apply _. Defined.

#[export] Instance sizes_nonneg_dec l : Decision (sizes_nonneg l).
Proof. unfold sizes_nonneg. apply _. Defined.

(** The operation does not take the running total out of [int64]: the
    value of a [Put] has a non-negative size, and the total that the
    branches of [Put] compute, the old one with the size of the value in
    place of the size recorded for the key, is at most [max_int64]. *)
Definition fits (c : LRUCache) (o : op) : Prop :=
  match o with
  | OpPut key value =>
      0 ≤ cache.Size value ∧
      size c + (cache.Size value - recorded_size c key) ≤ max_int64
  | OpGet _ => True
  end.

(** Every operation of the sequence fits, in the state in which it runs. *)
Fixpoint all_fit (c : LRUCache) (ops : list op) : Prop :=
  match ops with
  | [] => True
  | o :: ops' => fits c o ∧ all_fit (step c o) ops'
  end.

(** The values an operation stores satisfy [P]. *)
Definition op_values (P : V → Prop) (o : op) : Prop :=
  match o with
  | OpPut _ value => P value
  | OpGet _ => True
  end.

(** The operation is a [Put] on [key]. *)
Definition puts (key : string) (o : op) : Prop :=
  match o with
  | OpPut key' _ => key' = key
  | OpGet _ => False
  end.

(** The size recorded with every value is the size the value reports. *)
Definition sizes_recorded (l : container_list.List item) : Prop :=
  Forall (λ x, item_size (container_list.Value x)
               = cache.Size (item_value (container_list.Value x))) l.

End lru.
Global Arguments item : clear implicits.
Global Arguments LRUCache : clear implicits.
Global Arguments op : clear implicits.
End lru.

(** ** Package [ttlcache]: the Lazy-Expiry cache *)

Module ttlcache.
Section ttlcache.
Context {V : Type}.

(** [type item struct { value cache.Value; expiry int64 }] *)
Record item := mkItem { value : V; expiry : Z }.

(** [type TTLCache struct { table map[string]*item }].  An item is never
    modified once it is stored, so the table holds the items themselves. *)
Record TTLCache := mkTTLCache { table : gmap string item }.

(** [func New() *TTLCache] *)
Definition New : TTLCache := {| table := ∅ |}.

(** Modelled from the spec: [time.Now().Add(ttl).UnixNano()], of Go's
    package [time], which is not part of the repository.  The clock reads
    [now] nanoseconds; the specification gives [expiry = now + ttl].  (Go
    documents the result of [UnixNano] for the instants that a count of
    nanoseconds in an [int64] represents, where it is this sum.) *)
Definition deadline (now ttl : Z) : Z := now + ttl.

(** [func (c *TTLCache) Put(key string, value cache.Value, ttl time.Duration)] *)
Definition Put (c : TTLCache) (key : string) (value : V) (ttl now : Z)
    : TTLCache :=
  let it := {| value := value;
               expiry := if bool_decide (ttl > 0) then deadline now ttl
                         else 0 |} in
  {| table := <[key := it]> (table c) |}.

(** The test of [Get] and [List]:
    [it.expiry > 0 && now > it.expiry]. *)
Definition expired (it : item) (now : Z) : bool :=
  bool_decide (expiry it > 0) && bool_decide (now > expiry it).

(** [func (c *TTLCache) Get(key string) (cache.Value, bool)] *)
Definition Get (c : TTLCache) (key : string) (now : Z)
    : TTLCache * option V :=
  match table c !! key with
  | None => (c, None)
  | Some it =>
      if expired it now then ({| table := delete key (table c) |}, None)
      else (c, Some (value it))
  end.

(** One iteration of the loop of [List]. *)
Definition List_step (now : Z) (acc : gmap string item * list (string * V))
    (kv : string * item) : gmap string item * list (string * V) :=
  let '(tbl, listContent) := acc in
  let '(key, it) := kv in
  if expired it now then (delete key tbl, listContent)
  else (tbl, listContent ++ [(key, value it)]).

(** [func (c *TTLCache) List() []map[string]cache.Value]: the loop visits
    the entries of the table in the order of its traversal; deleting the
    entry being visited leaves the others to be visited.  Each singleton
    map of the result is a pair. *)
Definition List (c : TTLCache) (now : Z) : TTLCache * list (string * V) :=
  let '(tbl, listContent) :=
    foldl (List_step now) (table c, []) (map_to_list (table c)) in
  ({| table := tbl |}, listContent).

(** *** Sequences of operations *)

Inductive op :=
  | OpPut (key : string) (value : V) (ttl now : Z)
  | OpGet (key : string) (now : Z)
  | OpList (now : Z).

Definition step (c : TTLCache) (o : op) : TTLCache :=
  match o with
  | OpPut key value ttl now => Put c key value ttl now
  | OpGet key now => (Get c key now).1
  | OpList now => (List c now).1
  end.

Definition run (c : TTLCache) (ops : list op) : TTLCache := foldl step c ops.

(** The operation is a [Put] on [key]. *)
Definition puts (key : string) (o : op) : Prop :=
  match o with
  | OpPut key' _ _ _ => key' = key
  | _ => False
  end.

(** The operation is a read, [Get] or [List], at a time not after [t]. *)
Definition reads_until (t : Z) (o : op) : Prop :=
  match o with
  | OpPut _ _ _ _ => False
  | OpGet _ now => now ≤ t
  | OpList now => now ≤ t
  end.

End ttlcache.
Global Arguments item : clear implicits.
Global Arguments TTLCache : clear implicits.
Global Arguments op : clear implicits.
End ttlcache.

(** ** The runs of the demonstration and of the examples *)

(** The first part of [main]: [lru.New(16)] and the operations on it, for
    any four values of type [IntValue]. *)
Section demo.
Variables va vb vc vd : IntValue.

Definition demo_ab : lru.LRUCache IntValue :=
  lru.run (lru.New 16) [lru.OpPut "a" va; lru.OpPut "b" vb].
Definition demo_get : lru.LRUCache IntValue := (lru.Get demo_ab "a").1.
Definition demo_c : lru.LRUCache IntValue := lru.Put demo_get "c" vc.
Definition demo_d : lru.LRUCache IntValue := lru.Put demo_c "d" vd.

End demo.

(** The second part of [main]: five seconds, in nanoseconds, and the cache
    after [Put k1] and [Put k2], the clock reading [t0]. *)
Definition ttl5 : Z := 5 * 10 ^ 9.

Definition demo_ttl (t0 : Z) : ttlcache.TTLCache IntValue :=
  ttlcache.run ttlcache.New
    [ttlcache.OpPut "k1" (IntVal 111) ttl5 t0;
     ttlcache.OpPut "k2" (IntVal 222) (2 * ttl5) t0].

(** A cache that holds one value stored without expiration. *)
Definition permanent : ttlcache.TTLCache IntValue :=
  ttlcache.Put ttlcache.New "k0" (IntVal 7) 0 1000.

(** A cache of capacity 1 that holds one value of size 1. *)
Definition tiny : lru.LRUCache Blob := lru.Put (lru.New 1) "a" (blob 1).

(** A cache of the largest capacity, filled by one value. *)
Definition filled : lru.LRUCache Blob :=
  lru.Put (lru.New max_int64) "a" (blob max_int64).

(** A cache of the largest capacity, filled by two values. *)
Definition filled2 : lru.LRUCache Blob :=
  lru.run (lru.New max_int64)
    [lru.OpPut "a" (blob (max_int64 - 1)); lru.OpPut "b" (blob 1)].

(** A cache of capacity 16 that holds two values of size 8. *)
Definition two8 : lru.LRUCache Blob :=
  lru.run (lru.New 16) [lru.OpPut "a" (blob 8); lru.OpPut "b" (blob 8)].

(** Four operations on values of size 8. *)
Definition ops8 : list (lru.op Blob) :=
  [lru.OpPut "a" (blob 8); lru.OpPut "b" (blob 8); lru.OpGet "a";
   lru.OpPut "c" (blob 8)].

(** The entry of k1 in the demonstration started at time 1000. *)
Definition k1 : ttlcache.item IntValue :=
  {| ttlcache.value := IntVal 111; ttlcache.expiry := 5000001000 |}.

(** Operations on other keys and reads, at arbitrary times. *)
Definition others : list (ttlcache.op IntValue) :=
  [ttlcache.OpGet "k0" 99999; ttlcache.OpList 5;
   ttlcache.OpPut "k1" (IntVal 1) 10 0; ttlcache.OpList 123456789012].

(** The cache [two8] after the branch of [Put] for a third value of size 8,
    before the eviction pass: its running total is 24. *)
Definition three8 : lru.LRUCache Blob := lru.Put_entry two8 "c" (blob 8).

(** Reads at times up to 7000000000. *)
Definition reads : list (ttlcache.op IntValue) :=
  [ttlcache.OpGet "k1" 6000000000; ttlcache.OpList 6500000000;
   ttlcache.OpGet "k2" 7000000000].

(** Operations at various times, none of them a [Put] on k1. *)
Definition no_Put_k1 : list (ttlcache.op IntValue) :=
  [ttlcache.OpGet "k1" 5; ttlcache.OpPut "k2" (IntVal 2) 0 6500000000;
   ttlcache.OpList 9; ttlcache.OpGet "k1" 8000000000].

(** Evaluation of a decidable proposition on a closed term. *)
Ltac evaluate := apply (bool_decide_unpack _); vm_compute; exact I.

(** * Properties *)

(** ** [int64] arithmetic *)

Lemma wrap64_id z : int64 z → wrap64 z = z.
Proof.
  unfold int64, wrap64, min_int64, max_int64. intros Hz.
  rewrite Z.mod_small; lia.
Qed.

Lemma min_int64_neg : min_int64 < 0.
Proof. done. Qed.

Lemma max_int64_pos : 0 < max_int64.
Proof. done. Qed.

Lemma int64_0 : int64 0.
Proof. split; done. Qed.

Lemma wrap64_congr a b k : a = b + 2 ^ 64 * k → wrap64 a = wrap64 b.
Proof.
  intros ->. unfold wrap64. f_equal.
  replace (b + 2 ^ 64 * k + 2 ^ 63) with (b + 2 ^ 63 + k * 2 ^ 64) by lia.
  apply Z_mod_plus_full.
Qed.

Lemma wrap64_spec z : ∃ k, wrap64 z = z + 2 ^ 64 * k.
Proof.
  exists (- ((z + 2 ^ 63) `div` 2 ^ 64)). unfold wrap64.
  pose proof (Z.div_mod (z + 2 ^ 63) (2 ^ 64)). lia.
Qed.

Lemma wrap64_add_l a b : wrap64 (wrap64 a + b) = wrap64 (a + b).
Proof.
  destruct (wrap64_spec a) as [k ->].
  apply (wrap64_congr _ _ k). lia.
Qed.

Lemma wrap64_add_r a b : wrap64 (a + wrap64 b) = wrap64 (a + b).
Proof. rewrite Z.add_comm, wrap64_add_l. f_equal. lia. Qed.

Lemma wrap64_sub_l a b : wrap64 (wrap64 a - b) = wrap64 (a - b).
Proof.
  destruct (wrap64_spec a) as [k ->].
  apply (wrap64_congr _ _ k). lia.
Qed.

(** ** [container/list] *)

Module container_list_facts.
Import container_list.
Section facts.
Context {A : Type}.
Implicit Types (l : List A) (e : nat) (v : A).

Lemma find_None e l : find e l = None ↔ e ∉ addr <$> l.
Proof.
  induction l as [|x l IH]; simpl.
  - split; [intros _; apply not_elem_of_nil | done].
  - rewrite not_elem_of_cons. destruct (decide (addr x = e)) as [->|Hne].
    + split; [done | intros [? _]; done].
    + rewrite IH. split; [intros ?; split; [by intros -> | done] | by intros [_ ?]].
Qed.

Lemma find_split e l v :
  find e l = Some v →
  ∃ l1 l2, l = l1 ++ mkElement e v :: l2 ∧ e ∉ (addr <$> l1).
Proof.
  induction l as [|x l IH]; simpl; [done|].
  destruct (decide (addr x = e)) as [<-|Hne].
  - intros [= <-]. exists [], l. split; [by destruct x | apply not_elem_of_nil].
  - intros (l1 & l2 & -> & Hl1)%IH. exists (x :: l1), l2.
    split; [done|]. rewrite fmap_cons, not_elem_of_cons. naive_solver.
Qed.

Lemma find_middle e l1 l2 v :
  e ∉ addr <$> l1 → find e (l1 ++ mkElement e v :: l2) = Some v.
Proof.
  induction l1 as [|x l1 IH]; simpl; intros Hl1.
  - by rewrite decide_True.
  - rewrite not_elem_of_cons in Hl1. destruct Hl1 as [Hx Hl1].
    rewrite decide_False by done. auto.
Qed.

Lemma find_elem_of e l v :
  NoDup (addr <$> l) → mkElement e v ∈ l → find e l = Some v.
Proof.
  intros Hnd (l1 & l2 & ->)%list_elem_of_split. apply find_middle.
  rewrite fmap_app, fmap_cons in Hnd. apply NoDup_app in Hnd as (_ & Hnd & _).
  intros Hin. apply (Hnd _ Hin). simpl. left.
Qed.

Lemma Remove_middle e l1 l2 v :
  e ∉ addr <$> l1 → Remove e (l1 ++ mkElement e v :: l2) = l1 ++ l2.
Proof.
  induction l1 as [|x l1 IH]; simpl; intros Hl1.
  - by rewrite decide_True.
  - rewrite not_elem_of_cons in Hl1. destruct Hl1 as [Hx Hl1].
    rewrite decide_False by done. f_equal. auto.
Qed.

Lemma set_Value_middle e l1 l2 v v' :
  e ∉ addr <$> l1 →
  set_Value e v' (l1 ++ mkElement e v :: l2) = l1 ++ mkElement e v' :: l2.
Proof.
  induction l1 as [|x l1 IH]; simpl; intros Hl1.
  - by rewrite decide_True.
  - rewrite not_elem_of_cons in Hl1. destruct Hl1 as [Hx Hl1].
    rewrite decide_False by done. f_equal. auto.
Qed.

Lemma MoveToBack_middle e l1 l2 v :
  e ∉ addr <$> l1 →
  MoveToBack e (l1 ++ mkElement e v :: l2) = l1 ++ l2 ++ [mkElement e v].
Proof.
  intros Hl1. unfold MoveToBack.
  rewrite find_middle, Remove_middle by done. by rewrite <- app_assoc.
Qed.

Lemma MoveToBack_absent e l : find e l = None → MoveToBack e l = l.
Proof. unfold MoveToBack. by intros ->. Qed.

(** The front element is the one [Remove] unlinks first. *)
Lemma Remove_Front x l : Front (x :: l) = Some x ∧ Remove (addr x) (x :: l) = l.
Proof. simpl. by rewrite decide_True. Qed.

Lemma fresh_addr_fresh l : fresh_addr l ∉ addr <$> l.
Proof.
  unfold fresh_addr. intros Hin.
  assert (Hle : (S (max_list (addr <$> l)) ≤ max_list (addr <$> l))%nat).
  { apply max_list_elem_of_le. exact Hin. }
  lia.
Qed.

End facts.
End container_list_facts.

(** ** The Sized-Recency cache *)

Module lru_facts.
Import container_list container_list_facts lru.
Section facts.
Context {V : Type} `{!cache.Value V}.
Implicit Types (c : LRUCache V) (l : container_list.List (item V))
  (key : string) (value : V) (tbl : gmap string nat).

(** *** The list: keys, index and total *)

Lemma keys_index l :
  keys l = ((λ x, (item_key (Value x), addr x)) <$> l).*1.
Proof. unfold keys. by rewrite <- list_fmap_compose. Qed.

Lemma total_app l1 l2 : total (l1 ++ l2) = total l1 + total l2.
Proof. unfold total. induction l1 as [|x l1 IH]; simpl; lia. Qed.

Lemma total_cons x l : total (x :: l) = item_size (Value x) + total l.
Proof. done. Qed.

Lemma total_nil : total ([] : container_list.List (item V)) = 0.
Proof. done. Qed.

Local Arguments total : simpl never.

Lemma total_nonneg l : sizes_nonneg l → 0 ≤ total l.
Proof. unfold total. induction 1; simpl; lia. Qed.

Lemma index_of_lookup_None l key : index_of l !! key = None ↔ key ∉ keys l.
Proof.
  unfold index_of. rewrite keys_index. symmetry.
  apply not_elem_of_list_to_map.
Qed.

Lemma index_of_lookup_Some l key e :
  NoDup (keys l) →
  index_of l !! key = Some e ↔
  ∃ it, mkElement e it ∈ l ∧ item_key it = key.
Proof.
  intros Hnd. unfold index_of.
  rewrite <- elem_of_list_to_map by (by rewrite <- keys_index).
  rewrite list_elem_of_fmap. split.
  - intros ([e' it] & [= -> ->] & Hin). by exists it.
  - intros (it & Hin & Hkey). subst key. by exists (mkElement e it).
Qed.

Lemma index_of_snoc l x :
  item_key (Value x) ∉ keys l →
  index_of (l ++ [x]) = <[item_key (Value x) := addr x]> (index_of l).
Proof.
  intros Hk. unfold index_of. rewrite fmap_app. simpl.
  apply list_to_map_snoc. by rewrite <- keys_index.
Qed.

Lemma index_of_Permutation l l' :
  NoDup (keys l) → l ≡ₚ l' → index_of l = index_of l'.
Proof.
  intros Hnd Hp. unfold index_of. apply list_to_map_proper.
  - by rewrite <- keys_index.
  - by apply fmap_Permutation.
Qed.

Lemma index_of_tail x l :
  NoDup (keys (x :: l)) →
  delete (item_key (Value x)) (index_of (x :: l)) = index_of l.
Proof.
  intros Hnd. apply NoDup_cons in Hnd as [Hx _].
  unfold index_of at 1. simpl. rewrite delete_insert_eq.
  apply delete_id. by apply index_of_lookup_None.
Qed.

(** Moving an element to the back, with or without a new value under the
    same key, permutes the list. *)
Lemma touch_Permutation l1 l2 (x : Element (item V)) :
  l1 ++ l2 ++ [x] ≡ₚ l1 ++ x :: l2.
Proof. by rewrite (Permutation_app_comm l2 [x]). Qed.

(** *** What a table entry designates *)

Lemma same_entries_find c key e :
  same_entries c → table c !! key = Some e →
  ∃ it, find e (ls c) = Some it ∧ item_key it = key.
Proof.
  intros (Ha & Hk & Ht) Hlook. rewrite Ht in Hlook.
  apply index_of_lookup_Some in Hlook as (it & Hin & Hkey); [|done].
  exists it. split; [|done]. by apply find_elem_of.
Qed.

Lemma same_entries_absent c key :
  same_entries c → table c !! key = None → key ∉ keys (ls c).
Proof. intros (_ & _ & Ht). rewrite Ht. apply index_of_lookup_None. Qed.

(** *** The two branches of [Put], computed *)

Lemma Put_entry_absent c key value :
  table c !! key = None →
  Put_entry c key value =
  {| capacity := capacity c;
     size := wrap64 (size c + cache.Size value);
     ls := ls c ++ [mkElement (fresh_addr (ls c))
                      (lru.mkItem key value (cache.Size value))];
     table := <[key := fresh_addr (ls c)]> (table c) |}.
Proof. intros Hk. unfold Put_entry. by rewrite Hk. Qed.

Lemma Put_entry_present c key value e l1 l2 it :
  table c !! key = Some e →
  ls c = l1 ++ mkElement e it :: l2 → e ∉ addr <$> l1 →
  Put_entry c key value =
  {| capacity := capacity c;
     size := wrap64 (size c + wrap64 (cache.Size value - item_size it));
     ls := l1 ++ l2 ++ [mkElement e
                          (lru.mkItem (item_key it) value (cache.Size value))];
     table := table c |}.
Proof.
  intros Hk Hl Hl1. unfold Put_entry. rewrite Hk, Hl.
  rewrite find_middle by done.
  by rewrite (set_Value_middle _ _ _ it), MoveToBack_middle.
Qed.

Lemma Get_absent c key : table c !! key = None → Get c key = (c, None).
Proof. intros Hk. unfold Get. by rewrite Hk. Qed.

Lemma Get_present c key e l1 l2 it :
  table c !! key = Some e →
  ls c = l1 ++ mkElement e it :: l2 → e ∉ addr <$> l1 →
  Get c key =
  ({| capacity := capacity c; size := size c;
      ls := l1 ++ l2 ++ [mkElement e it]; table := table c |},
   Some (item_value it)).
Proof.
  intros Hk Hl Hl1. unfold Get. rewrite Hk, Hl.
  by rewrite find_middle, MoveToBack_middle.
Qed.

(** *** The branches of [Put] keep the table and the list together *)

Lemma entry_cases c key :
  same_entries c →
  (table c !! key = None ∧ (key ∉ keys (ls c)) ∧ recorded_size c key = 0) ∨
  (∃ e it l1 l2,
      table c !! key = Some e ∧ item_key it = key ∧
      ls c = l1 ++ mkElement e it :: l2 ∧ (e ∉ addr <$> l1) ∧
      recorded_size c key = item_size it).
Proof.
  intros Hse. unfold recorded_size.
  destruct (table c !! key) as [e|] eqn:Hk; simpl.
  - right. destruct (same_entries_find _ _ _ Hse Hk) as (it & Hfind & Hkey).
    destruct (find_split _ _ _ Hfind) as (l1 & l2 & Hl & Hl1).
    exists e, it, l1, l2. by rewrite Hfind.
  - left. split; [done|]. split; [|done]. by apply same_entries_absent.
Qed.

Lemma same_entries_New cap : same_entries (New cap : LRUCache V).
Proof. repeat split; simpl; apply NoDup_nil_2. Qed.

Lemma consistent_New cap : consistent (New cap : LRUCache V).
Proof. split; [apply same_entries_New | done]. Qed.

Lemma Put_entry_capacity c key value :
  capacity (Put_entry c key value) = capacity c.
Proof.
  unfold Put_entry. destruct (table c !! key) as [e|]; [|done].
  by destruct (find e (ls c)).
Qed.

Lemma Put_entry_same_entries c key value :
  same_entries c → same_entries (Put_entry c key value).
Proof.
  intros Hse.
  destruct (entry_cases c key Hse)
    as [(Hk & Hnew & _)|(e & it & l1 & l2 & Hk & Hkey & Hl & Hl1 & _)].
  - rewrite Put_entry_absent by done. destruct Hse as (Ha & Hks & Ht).
    repeat split; simpl.
    + rewrite fmap_app. simpl. apply NoDup_app. split; [done|].
      split; [|apply NoDup_singleton].
      intros a Ha1 Ha2%list_elem_of_singleton. subst a.
      by apply (fresh_addr_fresh (ls c)).
    + unfold keys. rewrite fmap_app. simpl. apply NoDup_app. split; [done|].
      split; [|apply NoDup_singleton].
      by intros k Hk1 ->%list_elem_of_singleton.
    + rewrite index_of_snoc by done. simpl. by rewrite Ht.
  - rewrite (Put_entry_present _ _ _ _ _ _ _ Hk Hl Hl1).
    destruct Hse as (Ha & Hks & Ht). rewrite Hl in Ha, Hks, Ht.
    set (x' := mkElement e (lru.mkItem (item_key it) value (cache.Size value))).
    assert (Hp : l1 ++ l2 ++ [x'] ≡ₚ l1 ++ x' :: l2)
      by apply touch_Permutation.
    assert (Hak : addr <$> l1 ++ x' :: l2 = addr <$> l1 ++ mkElement e it :: l2)
      by (by rewrite !fmap_app, !fmap_cons).
    assert (Hkk : keys (l1 ++ x' :: l2) = keys (l1 ++ mkElement e it :: l2))
      by (unfold keys; by rewrite !fmap_app, !fmap_cons).
    assert (Hii : index_of (l1 ++ x' :: l2) = index_of (l1 ++ mkElement e it :: l2))
      by (unfold index_of; by rewrite !fmap_app, !fmap_cons).
    repeat split; simpl.
    + by rewrite Hp, Hak.
    + unfold keys. rewrite Hp. fold (keys (l1 ++ x' :: l2)). by rewrite Hkk.
    + rewrite Ht, <- Hii. symmetry. apply index_of_Permutation; [|done].
      unfold keys. rewrite Hp. fold (keys (l1 ++ x' :: l2)). by rewrite Hkk.
Qed.

Lemma Put_entry_total c key value :
  same_entries c →
  total (ls (Put_entry c key value))
  = total (ls c) + cache.Size value - recorded_size c key.
Proof.
  intros Hse.
  destruct (entry_cases c key Hse)
    as [(Hk & Hnew & ->)|(e & it & l1 & l2 & Hk & Hkey & Hl & Hl1 & ->)].
  - rewrite Put_entry_absent by done. simpl.
    rewrite total_app, total_cons, total_nil. simpl. lia.
  - rewrite (Put_entry_present _ _ _ _ _ _ _ Hk Hl Hl1). simpl.
    rewrite Hl, !total_app, !total_cons, total_nil. simpl. lia.
Qed.

Lemma Put_entry_size c key value :
  same_entries c →
  size (Put_entry c key value)
  = wrap64 (size c + (cache.Size value - recorded_size c key)).
Proof.
  intros Hse.
  destruct (entry_cases c key Hse)
    as [(Hk & Hnew & ->)|(e & it & l1 & l2 & Hk & Hkey & Hl & Hl1 & ->)].
  - rewrite Put_entry_absent by done. simpl. f_equal. lia.
  - rewrite (Put_entry_present _ _ _ _ _ _ _ Hk Hl Hl1). simpl.
    apply wrap64_add_r.
Qed.

Lemma Put_entry_consistent c key value :
  consistent c → consistent (Put_entry c key value).
Proof.
  intros [Hse Hsz]. split; [by apply Put_entry_same_entries|].
  rewrite Put_entry_size, Put_entry_total, Hsz by done.
  rewrite wrap64_add_l. f_equal. lia.
Qed.

Lemma Put_entry_last c key value :
  same_entries c →
  ∃ e, last (ls (Put_entry c key value))
       = Some (mkElement e (lru.mkItem key value (cache.Size value))) ∧
       table (Put_entry c key value) !! key = Some e.
Proof.
  intros Hse.
  destruct (entry_cases c key Hse)
    as [(Hk & Hnew & _)|(e & it & l1 & l2 & Hk & Hkey & Hl & Hl1 & _)].
  - rewrite Put_entry_absent by done. simpl. eexists. rewrite last_snoc.
    split; [done|]. apply lookup_insert_eq.
  - rewrite (Put_entry_present _ _ _ _ _ _ _ Hk Hl Hl1). simpl. exists e.
    rewrite !app_assoc, last_snoc, Hkey. done.
Qed.


(** *** Sizes that are not negative *)

Lemma sizes_nonneg_elem l x :
  sizes_nonneg l → x ∈ l → 0 ≤ item_size (Value x) ≤ total l.
Proof.
  intros Hnn (l1 & l2 & ->)%list_elem_of_split.
  apply Forall_app in Hnn as [Hnn1 Hnn2].
  apply Forall_cons in Hnn2 as [Hx Hnn2].
  apply total_nonneg in Hnn1, Hnn2.
  rewrite total_app, total_cons. lia.
Qed.

Lemma recorded_size_bounds c key :
  same_entries c → sizes_nonneg (ls c) →
  0 ≤ recorded_size c key ≤ total (ls c).
Proof.
  intros Hse Hnn.
  destruct (entry_cases c key Hse)
    as [(_ & _ & ->)|(e & it & l1 & l2 & _ & _ & Hl & _ & ->)].
  - split; [done | by apply total_nonneg].
  - apply (sizes_nonneg_elem _ (mkElement e it) Hnn).
    rewrite Hl. apply elem_of_app. right. left.
Qed.

Lemma Put_entry_nonneg c key value :
  same_entries c → sizes_nonneg (ls c) → 0 ≤ cache.Size value →
  sizes_nonneg (ls (Put_entry c key value)).
Proof.
  intros Hse Hnn Hv. unfold sizes_nonneg in *.
  destruct (entry_cases c key Hse)
    as [(Hk & Hnew & _)|(e & it & l1 & l2 & Hk & Hkey & Hl & Hl1 & _)].
  - rewrite Put_entry_absent by done. simpl.
    apply Forall_app. split; [done|]. by apply Forall_singleton.
  - rewrite (Put_entry_present _ _ _ _ _ _ _ Hk Hl Hl1). simpl.
    rewrite Hl in Hnn. apply Forall_app in Hnn as [Hnn1 Hnn2].
    apply Forall_cons in Hnn2 as [_ Hnn2].
    rewrite !Forall_app. repeat split; [done..|]. by apply Forall_singleton.
Qed.

(** *** The eviction pass *)

Lemma evict_loop_spec cap sz l tbl :
  NoDup (addr <$> l) → NoDup (keys l) →
  tbl = index_of l → sz = wrap64 (total l) →
  ∃ l', evict_loop cap sz l tbl = (wrap64 (total l'), l', index_of l') ∧
        l' `suffix_of` l ∧ (wrap64 (total l') ≤ cap ∨ l' = []).
Proof.
  revert sz tbl. induction l as [|x l IH]; intros sz tbl Ha Hk -> ->.
  - exists []. simpl. split; [by case_bool_decide|]. split; [done | by right].
  - simpl. case_bool_decide as Hgt.
    + destruct (IH (wrap64 (wrap64 (total (x :: l)) - item_size (Value x)))
                  (delete (item_key (Value x)) (index_of (x :: l))))
        as (l' & Hev & Hsuf & Hend).
      * by apply NoDup_cons in Ha as [_ ?].
      * by apply NoDup_cons in Hk as [_ ?].
      * by rewrite index_of_tail.
      * rewrite wrap64_sub_l, total_cons. f_equal. lia.
      * exists l'. split; [done|]. split; [by apply suffix_cons_r | done].
    + exists (x :: l). split; [done|]. split; [done|]. left. lia.
Qed.

Lemma evictLRU_spec c :
  consistent c →
  consistent (evictLRU c) ∧ capacity (evictLRU c) = capacity c ∧
  ls (evictLRU c) `suffix_of` ls c ∧
  (size (evictLRU c) ≤ capacity c ∨ ls (evictLRU c) = []).
Proof.
  intros [(Ha & Hk & Ht) Hsz].
  destruct (evict_loop_spec (capacity c) (size c) (ls c) (table c) Ha Hk Ht Hsz)
    as (l' & Hev & Hsuf & Hend).
  unfold evictLRU. rewrite Hev. simpl.
  destruct Hsuf as [l0 Hl0]. rewrite Hl0 in Ha, Hk.
  rewrite fmap_app in Ha. unfold keys in Hk. rewrite fmap_app in Hk.
  apply NoDup_app in Ha as (_ & _ & Ha). apply NoDup_app in Hk as (_ & _ & Hk).
  repeat split; simpl; try done. by exists l0.
Qed.

(** Below the capacity the eviction pass does nothing. *)
Lemma evictLRU_within c : size c ≤ capacity c → evictLRU c = c.
Proof.
  intros Hle. unfold evictLRU.
  assert (Hev : evict_loop (capacity c) (size c) (ls c) (table c)
                = (size c, ls c, table c)).
  { destruct (ls c); simpl; case_bool_decide; (done || lia). }
  rewrite Hev. by destruct c.
Qed.

Lemma sizes_nonneg_suffix l l' :
  l' `suffix_of` l → sizes_nonneg l → sizes_nonneg l' ∧ total l' ≤ total l.
Proof.
  intros [l0 ->] [H0 H1]%Forall_app. split; [done|].
  apply total_nonneg in H0. rewrite total_app. lia.
Qed.

(** *** [Put] and [Get] keep the cache consistent *)

Lemma Put_consistent c key value : consistent c → consistent (Put c key value).
Proof.
  intros Hc. unfold Put.
  by apply evictLRU_spec, Put_entry_consistent.
Qed.

Lemma Put_capacity c key value :
  consistent c → capacity (Put c key value) = capacity c.
Proof.
  intros Hc. unfold Put.
  destruct (evictLRU_spec (Put_entry c key value)) as (_ & -> & _).
  - by apply Put_entry_consistent.
  - apply Put_entry_capacity.
Qed.

Lemma Get_spec c key :
  same_entries c →
  same_entries (Get c key).1 ∧ ls (Get c key).1 ≡ₚ ls c ∧
  size (Get c key).1 = size c ∧ capacity (Get c key).1 = capacity c.
Proof.
  intros Hse.
  destruct (entry_cases c key Hse)
    as [(Hk & _ & _)|(e & it & l1 & l2 & Hk & Hkey & Hl & Hl1 & _)].
  - by rewrite Get_absent.
  - rewrite (Get_present _ _ _ _ _ _ Hk Hl Hl1). simpl.
    assert (Hp : l1 ++ l2 ++ [mkElement e it] ≡ₚ ls c)
      by (rewrite Hl; apply touch_Permutation).
    destruct Hse as (Ha & Hks & Ht).
    split; [|done]. repeat split; simpl.
    + by rewrite Hp.
    + unfold keys. rewrite Hp. done.
    + rewrite Ht. symmetry. apply index_of_Permutation; [|done].
      unfold keys. by rewrite Hp.
Qed.

Lemma total_Permutation l l' : l ≡ₚ l' → total l = total l'.
Proof.
  induction 1 as [|x l l' _ IH|x y l|l l' l'' _ IH1 _ IH2];
    rewrite ?total_cons; lia.
Qed.

Lemma Get_consistent c key : consistent c → consistent (Get c key).1.
Proof.
  intros [Hse Hsz]. destruct (Get_spec c key Hse) as (Hse' & Hp & Hsz' & _).
  split; [done|]. by rewrite Hsz', Hsz, (total_Permutation _ _ Hp).
Qed.

Lemma run_consistent c ops : consistent c → consistent (run c ops).
Proof.
  revert c. induction ops as [|o ops IH]; intros c Hc; [done|].
  simpl. apply IH. destruct o; simpl.
  - by apply Put_consistent.
  - by apply Get_consistent.
Qed.

Lemma consistent_exact_consistent c : consistent_exact c → consistent c.
Proof. intros (Hse & Hsz & Hint). split; [done|]. by rewrite <- Hsz, wrap64_id. Qed.

Lemma same_entries_table c key e :
  same_entries c →
  table c !! key = Some e ↔ ∃ it, mkElement e it ∈ ls c ∧ item_key it = key.
Proof. intros (_ & Hk & ->). by apply index_of_lookup_Some. Qed.

(** *** [List] shows the entries of the list *)

Lemma omap_fmap_Some {A B C} (f : B → option C) (g : A → B) (h : A → C)
    (l : list A) :
  (∀ x, x ∈ l → f (g x) = Some (h x)) → omap f (g <$> l) = h <$> l.
Proof.
  induction l as [|x l IH]; intros Hf; [done|]. simpl.
  rewrite (Hf x) by left. f_equal. apply IH. intros y Hy. apply Hf. by right.
Qed.

Lemma List_entries c : same_entries c → List c ≡ₚ entries (ls c).
Proof.
  intros (Ha & Hk & Ht). unfold List, entries. rewrite Ht. unfold index_of.
  rewrite map_to_list_to_map by (by rewrite <- keys_index).
  erewrite omap_fmap_Some; [done|].
  intros [e it] Hin. simpl. by rewrite (find_elem_of e (ls c) it).
Qed.

(** *** The capacity bound *)

Lemma bounded_New cap : 0 ≤ cap → bounded cap (New cap : LRUCache V).
Proof.
  intros Hcap. split; [|split; [apply Forall_nil_2 | done]].
  split; [apply same_entries_New|]. split; [done|]. apply int64_0.
Qed.

Lemma bounded_Put cap c key value :
  0 ≤ cap → bounded cap c → fits c (OpPut key value) →
  bounded cap (Put c key value).
Proof.
  intros Hcap (Hex & Hnn & Hle & Hc) [Hv Hfit].
  pose proof (consistent_exact_consistent c Hex) as Hcons.
  destruct Hex as (Hse & Hsz & _).
  pose proof (Put_entry_consistent c key value Hcons) as Hcons1.
  pose proof (Put_entry_nonneg c key value Hse Hnn Hv) as Hnn1.
  pose proof (Put_entry_total c key value Hse) as Htot1.
  destruct (evictLRU_spec _ Hcons1) as ([Hse2 Hsz2] & Hcap2 & Hsuf & Hend).
  destruct (sizes_nonneg_suffix _ _ Hsuf Hnn1) as [Hnn2 Hle2].
  pose proof (total_nonneg _ Hnn2) as H0.
  rewrite Put_entry_capacity, Hc in *. fold (Put c key value) in *.
  assert (Hint : int64 (total (ls (Put c key value))))
    by (pose proof min_int64_neg; unfold int64; lia).
  rewrite wrap64_id in Hsz2 by done.
  split; [split; [exact Hse2 | split; [exact Hsz2 | by rewrite Hsz2]]|].
  split; [exact Hnn2|]. split; [|exact Hcap2].
  destruct Hend as [Hend|Hend]; [lia|]. by rewrite Hend, total_nil.
Qed.

Lemma bounded_Get cap c key : bounded cap c → bounded cap (Get c key).1.
Proof.
  intros ((Hse & Hsz & Hint) & Hnn & Hle & Hc).
  destruct (Get_spec c key Hse) as (Hse' & Hp & Hsz' & Hc').
  pose proof (total_Permutation _ _ Hp) as Ht.
  split; [split; [exact Hse' | split; [lia | by rewrite Hsz']]|].
  split; [unfold sizes_nonneg; by rewrite Hp|]. split; [lia | by rewrite Hc'].
Qed.

Lemma bounded_run cap c ops :
  0 ≤ cap → bounded cap c → all_fit c ops → bounded cap (run c ops).
Proof.
  intros Hcap. revert c.
  induction ops as [|o ops IH]; intros c Hb Hops; [done|].
  destruct Hops as [Ho Hops]. simpl. apply IH; [|done].
  destruct o; simpl.
  - by apply bounded_Put.
  - by apply bounded_Get.
Qed.

(** Values of a size between 0 and [max_int64 - cap] always fit. *)
Lemma small_values_fit cap c ops :
  0 ≤ cap → bounded cap c →
  Forall (op_values (λ value, 0 ≤ cache.Size value ≤ max_int64 - cap)) ops →
  all_fit c ops.
Proof.
  intros Hcap Hb Hops. revert c Hb.
  induction Hops as [|o ops Ho _ IH]; intros c Hb; [done|].
  assert (Hfit : fits c o).
  { destruct o as [key value|key]; [|done]. simpl in *.
    destruct Hb as ((Hse & Hsz & _) & Hnn & Hle & _).
    pose proof (recorded_size_bounds c key Hse Hnn). lia. }
  split; [done|]. apply IH. destruct o; simpl.
  - by apply bounded_Put.
  - by apply bounded_Get.
Qed.

(** *** A value larger than the capacity *)

Lemma Put_entry_shape c key value :
  same_entries c → sizes_nonneg (ls c) →
  ∃ l0 e,
    ls (Put_entry c key value)
    = l0 ++ [mkElement e (lru.mkItem key value (cache.Size value))] ∧
    sizes_nonneg l0.
Proof.
  intros Hse Hnn. unfold sizes_nonneg in *.
  destruct (entry_cases c key Hse)
    as [(Hk & Hnew & _)|(e & it & l1 & l2 & Hk & Hkey & Hl & Hl1 & _)].
  - rewrite Put_entry_absent by done. simpl. by eexists _, _.
  - rewrite (Put_entry_present _ _ _ _ _ _ _ Hk Hl Hl1). simpl.
    exists (l1 ++ l2), e. rewrite Hkey, app_assoc. split; [done|].
    rewrite Hl in Hnn. apply Forall_app in Hnn as [Hnn1 Hnn2].
    apply Forall_cons in Hnn2 as [_ Hnn2]. by apply Forall_app.
Qed.

Lemma evict_loop_oversized cap l0 x tbl :
  sizes_nonneg l0 → total (l0 ++ [x]) ≤ max_int64 →
  min_int64 ≤ item_size (Value x) → cap < item_size (Value x) →
  (evict_loop cap (total (l0 ++ [x])) (l0 ++ [x]) tbl).1.2 = [].
Proof.
  intros Hnn Hmax Hmin Hx. revert tbl.
  induction Hnn as [|y l0 Hy Hnn IH]; intros tbl.
  - simpl. rewrite total_cons, total_nil.
    rewrite bool_decide_eq_true_2 by lia. by case_bool_decide.
  - assert (Hge : item_size (Value x) ≤ total (l0 ++ [x])).
    { apply total_nonneg in Hnn.
      rewrite total_app, total_cons, total_nil. lia. }
    simpl app in *. rewrite total_cons in *. simpl.
    rewrite bool_decide_eq_true_2 by lia.
    replace (item_size (Value y) + total (l0 ++ [x]) - item_size (Value y))
      with (total (l0 ++ [x])) by lia.
    rewrite wrap64_id by (unfold int64; lia). apply IH. lia.
Qed.

Lemma consistent_int64_exact c :
  consistent c → int64 (total (ls c)) → consistent_exact c.
Proof.
  intros [Hse Hsz] Hint. rewrite wrap64_id in Hsz by done.
  split; [done|]. split; [done | by rewrite Hsz].
Qed.

(** *** The properties of the specification *)

(** C1 (amended): for every cache built by [New] with a positive capacity
    and every sequence of [Put] and [Get] whose values report non-negative
    sizes and in which no [Put] takes the running total beyond [max_int64],
    the sum of the sizes of the entries is at most the capacity after every
    operation, in particular after each [Put] and its eviction pass. *)
Theorem capacity_invariant cap (ops : list (op V)) :
  0 < cap → all_fit (New cap) ops →
  total (ls (run (New cap) ops)) ≤ cap.
Proof.
  intros Hcap Hops.
  destruct (bounded_run cap (New cap) ops) as (_ & _ & Hle & _);
    [lia | apply bounded_New; lia | done | done].
Qed.

(** In particular when every value has a size between 0 and
    [max_int64 - cap]. *)
Corollary capacity_invariant_small_values cap (ops : list (op V)) :
  0 < cap →
  Forall (op_values (λ value, 0 ≤ cache.Size value ≤ max_int64 - cap)) ops →
  total (ls (run (New cap) ops)) ≤ cap.
Proof.
  intros Hcap Hops.
  destruct (bounded_run cap (New cap) ops) as (_ & _ & Hle & _);
    [lia | apply bounded_New; lia | | done].
  apply (small_values_fit cap); [lia | apply bounded_New; lia | done].
Qed.

(** C4 (amended): on a cache whose field [size] is the sum of the sizes of
    its entries, none of them negative, a [Put] of a value whose size exceeds
    the capacity, and which does not take the running total beyond
    [max_int64], returns (the model is a total function) and leaves the
    cache empty: the entry just stored is evicted with all the others. *)
Theorem Put_oversized c key value :
  consistent_exact c → sizes_nonneg (ls c) →
  capacity c < cache.Size value →
  size c + (cache.Size value - recorded_size c key) ≤ max_int64 →
  Put c key value
  = {| capacity := capacity c; size := 0; ls := []; table := ∅ |} ∧
  List (Put c key value) = [].
Proof.
  intros Hex Hnn Hbig Hfit.
  pose proof (consistent_exact_consistent c Hex) as Hcons.
  destruct Hex as (Hse & Hsz & Hint).
  pose proof (Put_entry_consistent c key value Hcons) as Hcons1.
  pose proof (Put_entry_total c key value Hse) as Htot1.
  pose proof (Put_entry_size c key value Hse) as Hsz1.
  pose proof (cache.Size_int64 value) as [Hvmin _].
  destruct (Put_entry_shape c key value Hse Hnn) as (l0 & e & Hl & Hnn0).
  assert (Hlow : cache.Size value ≤ total (ls (Put_entry c key value))).
  { rewrite Hl, total_app, total_cons, total_nil. simpl.
    apply total_nonneg in Hnn0. lia. }
  rewrite wrap64_id in Hsz1 by (unfold int64; lia).
  assert (Hempty : ls (Put c key value) = []).
  { unfold Put, evictLRU.
    pose proof (evict_loop_oversized (capacity (Put_entry c key value)) l0
      (mkElement e (lru.mkItem key value (cache.Size value)))
      (table (Put_entry c key value)) Hnn0) as Hev.
    rewrite <- Hl in Hev.
    replace (total (ls (Put_entry c key value)))
      with (size (Put_entry c key value)) in Hev by lia.
    destruct (evict_loop _ _ _ _) as [[sz l] tbl]. simpl in *.
    apply Hev; [lia | done | by rewrite Put_entry_capacity]. }
  destruct (Put_consistent c key value Hcons) as [(_ & _ & Ht) Hs].
  pose proof (Put_capacity c key value Hcons) as Hc.
  rewrite Hempty in Ht, Hs.
  assert (HP : Put c key value
               = {| capacity := capacity c; size := 0; ls := []; table := ∅ |}).
  { destruct (Put c key value). simpl in *. by subst. }
  split; [done|]. by rewrite HP.
Qed.

(** C5 (amended): for a key present with recorded size [s_old], the update
    branch of [Put] with a value of size [s_new] brings the cache, before
    the eviction pass that ends [Put], to a state whose running total is the
    old one plus [s_new - s_old] reduced to [int64], and is exactly that sum
    when it fits in [int64]; the sum of the recorded sizes changes by
    exactly [s_new - s_old]; the stored value is replaced, the entry is at
    the newest position and no key is gained or lost.  [Put] ends with the
    eviction pass on that state, which leaves it as it is when the running
    total is within the capacity. *)
Theorem Put_existing c key value e it :
  consistent c → table c !! key = Some e → find e (ls c) = Some it →
  let c1 := Put_entry c key value in
  let it' := lru.mkItem key value (cache.Size value) in
  size c1 = wrap64 (size c + (cache.Size value - item_size it)) ∧
  (int64 (size c + (cache.Size value - item_size it)) →
   size c1 = size c + (cache.Size value - item_size it)) ∧
  total (ls c1) = total (ls c) + (cache.Size value - item_size it) ∧
  last (ls c1) = Some (mkElement e it') ∧
  table c1 = table c ∧ find e (ls c1) = Some it' ∧
  keys (ls c1) ≡ₚ keys (ls c) ∧
  Put c key value = evictLRU c1 ∧
  (size c1 ≤ capacity c → Put c key value = c1).
Proof.
  intros [Hse Hsz] Hk Hfind c1 it'.
  destruct (same_entries_find c key e Hse Hk) as (it0 & Hfind0 & Hkey).
  rewrite Hfind in Hfind0. injection Hfind0 as <-.
  destruct (find_split _ _ _ Hfind) as (l1 & l2 & Hl & Hl1).
  pose proof (Put_entry_present c key value e l1 l2 it Hk Hl Hl1) as HP.
  fold c1 in HP. rewrite Hkey in HP. fold it' in HP.
  assert (Hnd : NoDup (addr <$> l1 ++ l2 ++ [mkElement e it'])).
  { destruct Hse as (Ha & _). rewrite Hl in Ha.
    rewrite touch_Permutation. by rewrite !fmap_app, !fmap_cons in *. }
  assert (Hsize : size c1 = wrap64 (size c + (cache.Size value - item_size it))).
  { rewrite HP. simpl. apply wrap64_add_r. }
  split; [done|]. split; [intros Hint; by rewrite Hsize, wrap64_id|].
  assert (Hcap : capacity c1 = capacity c) by apply Put_entry_capacity.
  assert (Hin : size c1 ≤ capacity c → Put c key value = c1).
  { intros Hle. apply evictLRU_within. by rewrite Hcap. }
  assert (Hev : Put c key value = evictLRU c1) by done.
  revert Hin Hev. generalize (Put c key value). intros c2 Hin Hev.
  rewrite HP in *. simpl.
  split; [rewrite Hl, !total_app, !total_cons, total_nil; simpl; lia|].
  split; [by rewrite !app_assoc, last_snoc|].
  split; [done|].
  split; [apply find_elem_of; [done|]; rewrite !elem_of_app; right; right; left|].
  split; [unfold keys; rewrite touch_Permutation, Hl, !fmap_app, !fmap_cons;
          simpl; by rewrite Hkey|].
  done.
Qed.

(** C9 (amended): [Put] and [Get] preserve the consistency of the cache,
    the table and the list holding the same entries without duplicates and
    the field [size] being the sum of the recorded sizes reduced to [int64],
    hence the sum itself whenever it fits in [int64]; [List], which modifies
    nothing, returns the entries of the list. *)
Theorem operations_consistent c key value :
  consistent c →
  consistent (Put c key value) ∧
  (int64 (total (ls (Put c key value))) → consistent_exact (Put c key value)) ∧
  consistent (Get c key).1 ∧
  (int64 (total (ls (Get c key).1)) → consistent_exact (Get c key).1) ∧
  List c ≡ₚ entries (ls c).
Proof.
  intros Hc.
  pose proof (Put_consistent c key value Hc) as HP.
  pose proof (Get_consistent c key Hc) as HG.
  split; [done|]. split; [by apply consistent_int64_exact|].
  split; [done|]. split; [by apply consistent_int64_exact|].
  apply List_entries, Hc.
Qed.

(** C10: a [Get] for a key that is not in the table reports not-found and
    returns the cache as it was: entries, recency order and running total
    are those of before. *)
Theorem Get_miss c key : table c !! key = None → Get c key = (c, None).
Proof. apply Get_absent. Qed.

End facts.
End lru_facts.



(** *** The demonstration and the examples *)

Module lru_examples.
Import container_list lru lru_facts.

(** C2: on a cache of capacity 16 that holds values of 8 bytes, after
    [Put a], [Put b] the listing holds a and b; after [Get a], which finds
    a, [Put c] evicts exactly b and the listing holds a and c; then [Put d]
    evicts exactly a and the listing holds c and d. *)
Theorem demo_evicts_least_recently_used (va vb vc vd : IntValue) :
  let c2 := demo_ab va vb in
  let c3 := demo_get va vb in
  let c4 := demo_c va vb vc in
  let c5 := demo_d va vb vc vd in
  (keys (ls c2) = ["a"; "b"] ∧ List c2 ≡ₚ [("a", va); ("b", vb)]) ∧
  ((Get c2 "a").2 = Some va ∧ keys (ls c3) = ["b"; "a"]) ∧
  (keys (ls c4) = ["a"; "c"] ∧ List c4 ≡ₚ [("a", va); ("c", vc)] ∧
   table c4 !! "b" = None ∧ (Get c4 "b").2 = None) ∧
  (keys (ls c5) = ["c"; "d"] ∧ List c5 ≡ₚ [("c", vc); ("d", vd)] ∧
   table c5 !! "a" = None ∧ (Get c5 "a").2 = None).
Proof.
  intros c2 c3 c4 c5.
  assert (H2 : consistent c2).
  { unfold c2, demo_ab. apply run_consistent, consistent_New. }
  assert (H3 : consistent c3).
  { unfold c3, demo_get. exact (Get_consistent _ _ H2). }
  assert (H4 : consistent c4).
  { unfold c4, demo_c. exact (Put_consistent _ _ _ H3). }
  assert (H5 : consistent c5).
  { unfold c5, demo_d. exact (Put_consistent _ _ _ H4). }
  pose proof (List_entries c2 (proj1 H2)) as L2.
  pose proof (List_entries c4 (proj1 H4)) as L4.
  pose proof (List_entries c5 (proj1 H5)) as L5.
  split; [split; [vm_compute; reflexivity | rewrite L2; vm_compute; reflexivity]|].
  split; [split; vm_compute; reflexivity|].
  split; (split; [vm_compute; reflexivity|]).
  - split; [rewrite L4; vm_compute; reflexivity | split; vm_compute; reflexivity].
  - split; [rewrite L5; vm_compute; reflexivity | split; vm_compute; reflexivity].
Qed.

Lemma capacity_invariant_witness :
  0 < 16 ∧ all_fit (New 16) ops8 ∧ total (ls (run (New 16) ops8)) ≤ 16.
Proof.
  assert (Hops : all_fit (New 16) ops8)
    by (vm_compute; repeat split; discriminate).
  split; [lia|]. split; [exact Hops|].
  apply (capacity_invariant 16 ops8); [lia | exact Hops].
Defined.

(** C1, as stated, fails: with capacity 1, after [Put] of a value of size 1
    and [Put] of a value of size [max_int64], both non-negative, the running
    total has wrapped around to [min_int64], nothing is evicted and the sum
    of the sizes is [2 ^ 63]. *)
Lemma capacity_invariant_overflow :
  let ops := [OpPut "a" (blob 1); OpPut "b" (blob max_int64)] in
  0 < 1 ∧ Forall (op_values (λ value, 0 ≤ cache.Size value)) ops ∧
  size (run (New 1) ops) = min_int64 ∧
  keys (ls (run (New 1) ops)) = ["a"; "b"] ∧
  total (ls (run (New 1) ops)) = 2 ^ 63 ∧
  ¬ total (ls (run (New 1) ops)) ≤ 1.
Proof.
  intros ops. split; [lia|]. split.
  { repeat apply Forall_cons_2; try apply Forall_nil_2; vm_compute;
      discriminate. }
  repeat split; try (vm_compute; reflexivity). vm_compute. by intros H.
Qed.

Lemma Put_oversized_witness :
  consistent_exact two8 ∧ sizes_nonneg (ls two8) ∧
  capacity two8 < cache.Size (blob 17) ∧
  size two8 + (cache.Size (blob 17) - recorded_size two8 "c") ≤ max_int64 ∧
  Put two8 "c" (blob 17)
  = {| capacity := capacity two8; size := 0; ls := []; table := ∅ |} ∧
  List (Put two8 "c" (blob 17)) = [].
Proof.
  assert (H1 : consistent_exact two8) by evaluate.
  assert (H2 : sizes_nonneg (ls two8)) by evaluate.
  assert (H3 : capacity two8 < cache.Size (blob 17)) by (vm_compute; reflexivity).
  assert (H4 : size two8 + (cache.Size (blob 17) - recorded_size two8 "c")
               ≤ max_int64)
    by (vm_compute; discriminate).
  split; [exact H1|]. split; [exact H2|]. split; [exact H3|].
  split; [exact H4|].
  exact (Put_oversized two8 "c" (blob 17) H1 H2 H3 H4).
Defined.

(** C4, as stated, fails: the cache [tiny], of capacity 1, holds one entry
    of size 1; a [Put] of a value of size [max_int64] wraps the running
    total around to [min_int64], so nothing is evicted and the cache holds
    both entries. *)
Lemma Put_oversized_overflow :
  consistent_exact tiny ∧ sizes_nonneg (ls tiny) ∧
  capacity tiny < cache.Size (blob max_int64) ∧
  size (Put tiny "b" (blob max_int64)) = min_int64 ∧
  keys (ls (Put tiny "b" (blob max_int64))) = ["a"; "b"] ∧
  ls (Put tiny "b" (blob max_int64)) ≠ [].
Proof.
  split; [evaluate|]. split; [evaluate|].
  repeat split; try (vm_compute; reflexivity). vm_compute. discriminate.
Qed.

Lemma Put_existing_witness :
  let it := lru.mkItem "a" (blob 8) 8 in
  let c1 := Put_entry two8 "a" (blob 4) in
  let it' := lru.mkItem "a" (blob 4) (cache.Size (blob 4)) in
  consistent two8 ∧ table two8 !! "a" = Some 1%nat ∧
  find 1%nat (ls two8) = Some it ∧
  size c1 = wrap64 (size two8 + (cache.Size (blob 4) - item_size it)) ∧
  (int64 (size two8 + (cache.Size (blob 4) - item_size it)) →
   size c1 = size two8 + (cache.Size (blob 4) - item_size it)) ∧
  total (ls c1) = total (ls two8) + (cache.Size (blob 4) - item_size it) ∧
  last (ls c1) = Some (mkElement 1%nat it') ∧
  table c1 = table two8 ∧ find 1%nat (ls c1) = Some it' ∧
  keys (ls c1) ≡ₚ keys (ls two8) ∧
  Put two8 "a" (blob 4) = evictLRU c1 ∧
  (size c1 ≤ capacity two8 → Put two8 "a" (blob 4) = c1).
Proof.
  intros it c1 it'.
  assert (H1 : consistent two8) by evaluate.
  assert (H2 : table two8 !! "a" = Some 1%nat) by (vm_compute; reflexivity).
  assert (H3 : find 1%nat (ls two8) = Some it) by (vm_compute; reflexivity).
  split; [exact H1|]. split; [exact H2|]. split; [exact H3|].
  exact (Put_existing two8 "a" (blob 4) 1%nat it H1 H2 H3).
Defined.

(** C5, as stated, fails: in the cache [filled2], of capacity [max_int64],
    the key b is present with recorded size 1 and the running total is
    [max_int64]; a [Put] of b with a value of size 2 replaces the value and
    moves the entry to the back, but the running total wraps around to
    [min_int64] instead of growing by [2 - 1]. *)
Lemma Put_existing_overflow :
  consistent_exact filled2 ∧
  recorded_size filled2 "b" = 1 ∧ cache.Size (blob 2) = 2 ∧
  size filled2 = max_int64 ∧
  size (Put_entry filled2 "b" (blob 2)) = min_int64 ∧
  size (Put filled2 "b" (blob 2)) = min_int64 ∧
  size (Put filled2 "b" (blob 2)) ≠ size filled2 + (2 - 1).
Proof.
  split; [evaluate|].
  repeat split; try (vm_compute; reflexivity). vm_compute. discriminate.
Qed.

(** The eviction pass of the same [Put] may undo what the update branch
    did: in [two8], of capacity 16, a [Put] of a with a value of size 12
    evicts b, and the running total ends at 12 instead of 16 + (12 - 8). *)
Example Put_existing_then_evict :
  recorded_size two8 "a" = 8 ∧ size two8 = 16 ∧
  size (Put_entry two8 "a" (blob 12)) = 20 ∧
  size (Put two8 "a" (blob 12)) = 12 ∧
  keys (ls (Put two8 "a" (blob 12))) = ["a"].
Proof. repeat split; vm_compute; reflexivity. Qed.

Lemma operations_consistent_witness :
  consistent two8 ∧
  consistent (Put two8 "a" (blob 8)) ∧
  (int64 (total (ls (Put two8 "a" (blob 8)))) →
   consistent_exact (Put two8 "a" (blob 8))) ∧
  consistent (Get two8 "a").1 ∧
  (int64 (total (ls (Get two8 "a").1)) → consistent_exact (Get two8 "a").1) ∧
  List two8 ≡ₚ entries (ls two8).
Proof.
  assert (H1 : consistent two8) by evaluate.
  split; [exact H1|].
  exact (operations_consistent two8 "a" (blob 8) H1).
Defined.

(** C9, as stated, fails: the cache [filled], of capacity [max_int64], is
    consistent, its field [size] being the sum [max_int64] of its sizes;
    after [Put] of a value of size 1 under a new key the field is
    [min_int64] while the sum of the sizes of the two entries is [2 ^ 63]. *)
Lemma operations_consistent_overflow :
  consistent_exact filled ∧
  size (Put filled "b" (blob 1)) = min_int64 ∧
  total (ls (Put filled "b" (blob 1))) = 2 ^ 63 ∧
  ¬ consistent_exact (Put filled "b" (blob 1)).
Proof.
  split; [evaluate|]. split; [vm_compute; reflexivity|].
  split; [vm_compute; reflexivity|]. evaluate.
Qed.

Lemma Get_miss_witness :
  table two8 !! "z" = None ∧ Get two8 "z" = (two8, None).
Proof.
  assert (H1 : table two8 !! "z" = None) by (vm_compute; reflexivity).
  split; [exact H1|]. exact (Get_miss two8 "z" H1).
Defined.

End lru_examples.

(** ** The Lazy-Expiry cache *)

Module ttlcache_facts.
Import ttlcache.
Section facts.
Context {V : Type}.
Implicit Types (c : TTLCache V) (it : item V) (key : string) (value : V)
  (tbl : gmap string (item V)) (l : list (string * item V)).

Lemma expired_true it now :
  expired it now = true ↔ 0 < expiry it ∧ expiry it < now.
Proof.
  unfold expired. rewrite andb_true_iff, !bool_decide_eq_true. lia.
Qed.

Lemma expired_false it now :
  expired it now = false ↔ expiry it ≤ 0 ∨ now ≤ expiry it.
Proof.
  rewrite <- not_true_iff_false, expired_true. lia.
Qed.

(** *** [Get] *)

Lemma ttl_Get_absent c key now : table c !! key = None → Get c key now = (c, None).
Proof. intros Hk. unfold Get. by rewrite Hk. Qed.

Lemma ttl_Get_expired c key it now :
  table c !! key = Some it → expired it now = true →
  Get c key now = ({| table := delete key (table c) |}, None).
Proof. intros Hk He. unfold Get. by rewrite Hk, He. Qed.

Lemma ttl_Get_live c key it now :
  table c !! key = Some it → expired it now = false →
  Get c key now = (c, Some (value it)).
Proof. intros Hk He. unfold Get. by rewrite Hk, He. Qed.

(** *** The loop of [List] *)

Lemma List_loop_content now l tbl content :
  (foldl (List_step now) (tbl, content) l).2
  = content ++ ((λ kv, (kv.1, value kv.2)) <$>
                  filter (λ kv, expired kv.2 now = false) l).
Proof.
  revert tbl content. induction l as [|[k it] l IH]; intros tbl content; simpl.
  - by rewrite app_nil_r.
  - rewrite filter_cons. simpl. destruct (expired it now) eqn:He.
    + rewrite decide_False by done. apply IH.
    + rewrite decide_True by done. rewrite IH, <- app_assoc. done.
Qed.

Lemma List_loop_deletes now l tbl content key it :
  (key, it) ∈ l → expired it now = true →
  (foldl (List_step now) (tbl, content) l).1 !! key = None.
Proof.
  intros Hin He. revert tbl content.
  induction l as [|[k it'] l IH]; intros tbl content; simpl.
  - by apply elem_of_nil in Hin.
  - apply elem_of_cons in Hin as [[= <- <-]|Hin].
    + rewrite He. clear IH. revert content.
      assert (Hk : delete key tbl !! key = None) by apply lookup_delete_eq.
      revert Hk. generalize (delete key tbl). clear.
      induction l as [|[k it'] l IH]; intros tbl Hk content; simpl; [done|].
      destruct (expired it' now).
      * apply IH. destruct (decide (k = key)) as [->|Hne].
        -- apply lookup_delete_eq.
        -- by rewrite lookup_delete_ne.
      * by apply IH.
    + destruct (expired it' now); by apply IH.
Qed.

Lemma List_loop_keeps now l tbl content key :
  (∀ it, (key, it) ∈ l → expired it now = false) →
  (foldl (List_step now) (tbl, content) l).1 !! key = tbl !! key.
Proof.
  revert tbl content.
  induction l as [|[k it'] l IH]; intros tbl content Hl; simpl; [done|].
  assert (Hl' : ∀ it, (key, it) ∈ l → expired it now = false).
  { intros it Hin. apply Hl. by right. }
  destruct (expired it' now) eqn:He; rewrite IH by done; [|done].
  apply lookup_delete_ne. intros ->.
  specialize (Hl it' ltac:(left)). congruence.
Qed.

Lemma List_table c now key :
  table (List c now).1 !! key
  = match table c !! key with
    | Some it => if expired it now then None else Some it
    | None => None
    end.
Proof.
  unfold List.
  destruct (foldl _ _ _) as [tbl content] eqn:Hfold. simpl.
  change tbl with (tbl, content).1. rewrite <- Hfold.
  destruct (table c !! key) as [it|] eqn:Hk.
  - destruct (expired it now) eqn:He.
    + apply (List_loop_deletes _ _ _ _ _ it); [|done].
      by apply elem_of_map_to_list.
    + rewrite List_loop_keeps; [done|].
      intros it' Hin%elem_of_map_to_list. congruence.
  - rewrite List_loop_keeps; [done|].
    intros it' Hin%elem_of_map_to_list. congruence.
Qed.

Lemma List_content c now :
  (List c now).2
  = (λ kv, (kv.1, value kv.2)) <$>
      filter (λ kv, expired kv.2 now = false) (map_to_list (table c)).
Proof.
  unfold List.
  destruct (foldl _ _ _) as [tbl content] eqn:Hfold. simpl.
  change content with (tbl, content).2. by rewrite <- Hfold, List_loop_content.
Qed.

Lemma List_elem_of c now key value :
  (key, value) ∈ (List c now).2 ↔
  ∃ it, table c !! key = Some it ∧ value = ttlcache.value it ∧
        expired it now = false.
Proof.
  rewrite List_content, list_elem_of_fmap. split.
  - intros ([k it] & [= -> ->] & [He Hin%elem_of_map_to_list]%list_elem_of_filter).
    by exists it.
  - intros (it & Hk & -> & He). exists (key, it). split; [done|].
    apply list_elem_of_filter. split; [done|]. by apply elem_of_map_to_list.
Qed.

Lemma List_keys c now key :
  key ∈ (List c now).2.*1 ↔
  ∃ it, table c !! key = Some it ∧ expired it now = false.
Proof.
  rewrite list_elem_of_fmap. split.
  - intros ([k v] & -> & (it & Hk & _ & He)%List_elem_of). by exists it.
  - intros (it & Hk & He). exists (key, ttlcache.value it). split; [done|].
    apply List_elem_of. by exists it.
Qed.

Lemma List_keys_NoDup c now : NoDup (List c now).2.*1.
Proof.
  rewrite List_content, <- list_fmap_compose.
  apply (NoDup_fmap_2_strong _).
  - intros [k1 it1] [k2 it2] [_ H1%elem_of_map_to_list]%list_elem_of_filter
      [_ H2%elem_of_map_to_list]%list_elem_of_filter Heq.
    simpl in Heq. subst k2. congruence.
  - apply NoDup_filter, NoDup_map_to_list.
Qed.

(** *** The entry of a key under the operations on other keys *)

Lemma step_keeps_live c key it o :
  table c !! key = Some it → (∀ now, expired it now = false) → ¬ puts key o →
  table (step c o) !! key = Some it.
Proof.
  intros Hk Hlive Ho. destruct o as [key' value ttl now|key' now|now]; simpl.
  - rewrite lookup_insert_ne; [done|]. intros ->. by apply Ho.
  - unfold Get. destruct (table c !! key') as [it'|] eqn:Hk'; [|done].
    destruct (expired it' now) eqn:He; [|done]. simpl.
    rewrite lookup_delete_ne; [done|]. intros ->.
    rewrite Hk in Hk'. injection Hk' as <-. by rewrite Hlive in He.
  - by rewrite List_table, Hk, Hlive.
Qed.

Lemma run_keeps_live c key it ops :
  table c !! key = Some it → (∀ now, expired it now = false) →
  Forall (λ o, ¬ puts key o) ops →
  table (run c ops) !! key = Some it.
Proof.
  intros Hk Hlive Hops. revert c Hk.
  induction Hops as [|o ops Ho _ IH]; intros c Hk; [done|].
  simpl. apply IH. by apply step_keeps_live.
Qed.

(** *** The properties of the specification *)

(** C3 (amended): an entry whose stored expiry is set (positive) is present
    exactly as long as the current time is not after the expiry: [Get] and
    [List] at a time strictly later than the expiry treat it as absent, and
    at a time before the expiry, or equal to it, as present. *)
Theorem present_until_expiry c key it now :
  table c !! key = Some it → 0 < expiry it →
  ((Get c key now).2 = Some (value it) ↔ now ≤ expiry it) ∧
  ((Get c key now).2 = None ↔ expiry it < now) ∧
  ((key, value it) ∈ (List c now).2 ↔ now ≤ expiry it) ∧
  (key ∉ (List c now).2.*1 ↔ expiry it < now).
Proof.
  intros Hk Hset.
  assert (HG : (Get c key now).2
               = if expired it now then None else Some (value it)).
  { unfold Get. rewrite Hk. by destruct (expired it now). }
  rewrite HG, List_elem_of, List_keys.
  destruct (expired it now) eqn:He.
  - pose proof (proj1 (expired_true it now) He) as [_ Hlt].
    split; [split; [done | lia]|]. split; [done|]. split.
    + split; [|lia]. intros (it' & Hk' & _ & He'). congruence.
    + split; [done|]. intros _ (it' & Hk' & He'). congruence.
  - pose proof (proj1 (expired_false it now) He) as Hle.
    split; [split; [lia | done]|]. split; [split; [done | lia]|]. split.
    + split; [lia|]. intros _. by exists it.
    + split; [|lia]. intros Hno. exfalso. apply Hno. by exists it.
Qed.

(** C6: an entry stored by [Put] with [ttl <= 0] never expires.  After any
    operations other than a [Put] on its key, at whatever times, the entry
    is in the table as it was stored; [Get] on the key, at any time, returns
    the stored value with found = true and leaves the cache as it is; and
    [List], at any time, includes the entry and keeps it in the table. *)
Theorem no_ttl_never_expires c key value ttl now ops :
  ttl ≤ 0 → Forall (λ o, ¬ puts key o) ops →
  let c' := run (Put c key value ttl now) ops in
  table c' !! key = Some {| value := value; expiry := 0 |} ∧
  ∀ t, Get c' key t = (c', Some value) ∧
       (key, value) ∈ (List c' t).2 ∧
       table (List c' t).1 !! key = Some {| value := value; expiry := 0 |}.
Proof.
  intros Httl Hops c'.
  set (it := {| value := value; expiry := 0 |}).
  assert (Hlive : ∀ t, expired it t = false).
  { intros t. apply expired_false. left. done. }
  assert (Hk : table c' !! key = Some it).
  { apply run_keeps_live; [|done..]. unfold Put. simpl.
    rewrite bool_decide_eq_false_2 by lia. apply lookup_insert_eq. }
  split; [done|]. intros t. split; [|split].
  - by rewrite (ttl_Get_live c' key it t Hk (Hlive t)).
  - apply List_elem_of. by exists it.
  - by rewrite List_table, Hk, Hlive.
Qed.

(** C7: a [Put] on a key that is present replaces the entry wholesale.  The
    entry afterwards holds the value of this [Put] and the expiry
    [now + ttl] when [ttl] is positive, the never-expires marker 0
    otherwise; the cache is the one the same [Put] produces when the
    previous entry is removed first, or when any other [Put] on the key came
    first; the other keys are untouched. *)
Theorem Put_replaces c key old value ttl now :
  table c !! key = Some old →
  table (Put c key value ttl now) !! key
  = Some {| value := value;
            expiry := if bool_decide (ttl > 0) then now + ttl else 0 |} ∧
  Put c key value ttl now
  = Put {| table := delete key (table c) |} key value ttl now ∧
  (∀ value1 ttl1 now1,
     Put (Put c key value1 ttl1 now1) key value ttl now
     = Put c key value ttl now) ∧
  (∀ key', key' ≠ key →
     table (Put c key value ttl now) !! key' = table c !! key').
Proof.
  intros _. unfold Put, deadline. simpl. split; [apply lookup_insert_eq|].
  split; [by rewrite insert_delete_eq|].
  split; [intros; by rewrite insert_insert_eq|].
  intros key' Hne. by rewrite lookup_insert_ne.
Qed.

(** C8: the read that observes an expired entry removes it.  For a key
    present with an expiry that is set and has passed, [Get] deletes the
    entry from the table and reports not-found; [List] deletes it from the
    table and leaves it out of the snapshot; and [List] keeps in the table
    and returns every entry that has not expired, one whose expiry is not
    set (not positive) or is not before the current time, and nothing
    else. *)
Theorem expired_removed_on_read c key it now :
  table c !! key = Some it → 0 < expiry it → expiry it < now →
  Get c key now = ({| table := delete key (table c) |}, None) ∧
  table (List c now).1 !! key = None ∧
  (key ∉ (List c now).2.*1) ∧
  (∀ key' it', table c !! key' = Some it' →
     expiry it' ≤ 0 ∨ now ≤ expiry it' →
     table (List c now).1 !! key' = Some it' ∧
     (key', value it') ∈ (List c now).2) ∧
  (∀ key' value', (key', value') ∈ (List c now).2 →
     ∃ it', table c !! key' = Some it' ∧ value' = value it' ∧
            (expiry it' ≤ 0 ∨ now ≤ expiry it')) ∧
  NoDup (List c now).2.*1.
Proof.
  intros Hk Hset Hpast.
  assert (He : expired it now = true) by (by apply expired_true).
  split; [by apply (ttl_Get_expired c key it)|].
  split; [by rewrite List_table, Hk, He|].
  split; [rewrite List_keys; intros (it' & Hk' & He'); congruence|].
  split.
  - intros key' it' Hk' He'%expired_false.
    split; [by rewrite List_table, Hk', He'|].
    apply List_elem_of. by exists it'.
  - split; [|apply List_keys_NoDup].
    intros key' value' (it' & Hk' & Hv & He'%expired_false)%List_elem_of.
    by exists it'.
Qed.

End facts.
End ttlcache_facts.

(** *** The demonstration and the examples *)

Module ttlcache_examples.
Import ttlcache ttlcache_facts.

Lemma present_until_expiry_witness :
  table (demo_ttl 1000) !! "k1" = Some k1 ∧ 0 < expiry k1 ∧
  ((Get (demo_ttl 1000) "k1" 5000001000).2 = Some (value k1)
   ↔ 5000001000 ≤ expiry k1) ∧
  ((Get (demo_ttl 1000) "k1" 5000001000).2 = None
   ↔ expiry k1 < 5000001000) ∧
  ((("k1", value k1) ∈ (List (demo_ttl 1000) 5000001000).2)
   ↔ 5000001000 ≤ expiry k1) ∧
  (("k1" ∉ (List (demo_ttl 1000) 5000001000).2.*1)
   ↔ expiry k1 < 5000001000).
Proof.
  assert (H1 : table (demo_ttl 1000) !! "k1" = Some k1)
    by (vm_compute; reflexivity).
  assert (H2 : 0 < expiry k1) by reflexivity.
  split; [exact H1|]. split; [exact H2|].
  exact (present_until_expiry (demo_ttl 1000) "k1" k1 5000001000 H1 H2).
Defined.

(** C3, as stated, fails at the expiry instant: the entry of k1 expires at
    5000001000; at that time, which is not strictly before the expiry, [Get]
    finds the entry and [List] includes it, and both leave it in the
    table. *)
Lemma present_at_expiry_instant :
  table (demo_ttl 1000) !! "k1" = Some k1 ∧ expiry k1 = 5000001000 ∧
  ¬ 5000001000 < expiry k1 ∧
  (Get (demo_ttl 1000) "k1" 5000001000).2 = Some (IntVal 111) ∧
  ("k1", IntVal 111) ∈ (List (demo_ttl 1000) 5000001000).2 ∧
  table (Get (demo_ttl 1000) "k1" 5000001000).1 !! "k1" = Some k1 ∧
  table (List (demo_ttl 1000) 5000001000).1 !! "k1" = Some k1.
Proof.
  split; [vm_compute; reflexivity|]. split; [reflexivity|].
  split; [vm_compute; discriminate|]. split; [vm_compute; reflexivity|].
  split; [|split; vm_compute; reflexivity].
  apply List_elem_of. exists k1. repeat split; vm_compute; reflexivity.
Qed.

Lemma no_ttl_never_expires_witness :
  0 ≤ 0 ∧ Forall (λ o, ¬ puts "k0" o) others ∧
  let c' := run (Put New "k0" (IntVal 7) 0 1000) others in
  table c' !! "k0" = Some {| value := IntVal 7; expiry := 0 |} ∧
  ∀ t, Get c' "k0" t = (c', Some (IntVal 7)) ∧
       ("k0", IntVal 7) ∈ (List c' t).2 ∧
       table (List c' t).1 !! "k0" = Some {| value := IntVal 7; expiry := 0 |}.
Proof.
  assert (H1 : 0 ≤ 0) by lia.
  assert (H2 : Forall (λ o, ¬ puts "k0" o) others).
  { repeat apply Forall_cons_2; try apply Forall_nil_2; simpl;
      intros H; (exact H || discriminate H). }
  split; [exact H1|]. split; [exact H2|].
  exact (no_ttl_never_expires New "k0" (IntVal 7) 0 1000 others H1 H2).
Defined.

Lemma Put_replaces_witness :
  table (demo_ttl 1000) !! "k1" = Some k1 ∧
  table (Put (demo_ttl 1000) "k1" (IntVal 5) 0 2000) !! "k1"
  = Some {| value := IntVal 5;
            expiry := if bool_decide (0 > 0) then 2000 + 0 else 0 |} ∧
  Put (demo_ttl 1000) "k1" (IntVal 5) 0 2000
  = Put {| table := delete "k1" (table (demo_ttl 1000)) |}
      "k1" (IntVal 5) 0 2000 ∧
  (∀ value1 ttl1 now1,
     Put (Put (demo_ttl 1000) "k1" value1 ttl1 now1) "k1" (IntVal 5) 0 2000
     = Put (demo_ttl 1000) "k1" (IntVal 5) 0 2000) ∧
  (∀ key', key' ≠ "k1" →
     table (Put (demo_ttl 1000) "k1" (IntVal 5) 0 2000) !! key'
     = table (demo_ttl 1000) !! key').
Proof.
  assert (H1 : table (demo_ttl 1000) !! "k1" = Some k1)
    by (vm_compute; reflexivity).
  split; [exact H1|].
  exact (Put_replaces (demo_ttl 1000) "k1" k1 (IntVal 5) 0 2000 H1).
Defined.

Lemma expired_removed_on_read_witness :
  let c := demo_ttl 1000 in
  let now := 6000001000 in
  table c !! "k1" = Some k1 ∧ 0 < expiry k1 ∧ expiry k1 < now ∧
  Get c "k1" now = ({| table := delete "k1" (table c) |}, None) ∧
  table (List c now).1 !! "k1" = None ∧
  ("k1" ∉ (List c now).2.*1) ∧
  (∀ key' it', table c !! key' = Some it' →
     expiry it' ≤ 0 ∨ now ≤ expiry it' →
     table (List c now).1 !! key' = Some it' ∧
     (key', value it') ∈ (List c now).2) ∧
  (∀ key' value', (key', value') ∈ (List c now).2 →
     ∃ it', table c !! key' = Some it' ∧ value' = value it' ∧
            (expiry it' ≤ 0 ∨ now ≤ expiry it')) ∧
  NoDup (List c now).2.*1.
Proof.
  intros c now.
  assert (H1 : table c !! "k1" = Some k1) by (vm_compute; reflexivity).
  assert (H2 : 0 < expiry k1) by reflexivity.
  assert (H3 : expiry k1 < now) by reflexivity.
  split; [exact H1|]. split; [exact H2|]. split; [exact H3|].
  exact (expired_removed_on_read c "k1" k1 now H1 H2 H3).
Defined.

(** The second part of [main]: k1 is found at once; six seconds later
    [Get] does not find it and the listing holds k2 alone. *)
Example demo_ttl_expires (t0 : Z) :
  let c := demo_ttl t0 in
  0 ≤ t0 →
  Get c "k1" t0 = (c, Some (IntVal 111)) ∧
  (Get c "k1" (t0 + 6000000000)).2 = None ∧
  (List (Get c "k1" (t0 + 6000000000)).1 (t0 + 6000000000)).2
  = [("k2", IntVal 222)].
Proof.
  intros c Ht0.
  set (it1 := {| value := IntVal 111; expiry := t0 + ttl5 |}).
  assert (Httl : ttl5 = 5000000000) by reflexivity.
  assert (H1 : table c !! "k1" = Some it1).
  { unfold c, demo_ttl, run, Put, deadline. simpl.
    rewrite lookup_insert_ne by done. by rewrite lookup_insert_eq. }
  assert (Hlive : expired it1 t0 = false).
  { apply expired_false. right. simpl. rewrite Httl. lia. }
  assert (Hdead : expired it1 (t0 + 6000000000) = true).
  { apply expired_true. simpl. rewrite Httl. lia. }
  split; [by rewrite (ttl_Get_live c "k1" it1 t0 H1 Hlive)|].
  rewrite (ttl_Get_expired c "k1" it1 _ H1 Hdead). split; [done|].
  rewrite List_content. simpl.
  unfold c, demo_ttl, run, Put. simpl.
  rewrite delete_insert_ne by done. rewrite delete_insert_eq.
  rewrite delete_empty, insert_empty, map_to_list_singleton.
  rewrite filter_cons_True; [done|]. apply expired_false. right.
  unfold deadline. simpl expiry. rewrite ?Httl. lia.
Qed.

End ttlcache_examples.

(** ** More on the Sized-Recency cache *)

Module lru_more.
Import container_list container_list_facts lru lru_facts.
Section more.
Context {V : Type} `{!cache.Value V}.
Implicit Types (c : LRUCache V) (l : container_list.List (item V))
  (key : string) (value : V) (tbl : gmap string nat).

Local Arguments total : simpl never.

(** *** What [Get] returns *)

Lemma Get_result c key :
  (Get c key).2
  = item_value <$> (table c !! key ≫= λ entry, find entry (ls c)).
Proof.
  unfold Get. destruct (table c !! key) as [e|]; simpl; [|done].
  by destruct (find e (ls c)).
Qed.

Lemma entries_elem_of l key value :
  (key, value) ∈ entries l ↔
  ∃ x, x ∈ l ∧ item_key (Value x) = key ∧ item_value (Value x) = value.
Proof.
  unfold entries. rewrite list_elem_of_fmap. split.
  - intros (x & [= -> ->] & Hin). by exists x.
  - intros (x & Hin & <- & <-). by exists x.
Qed.

Lemma entries_keys l : (entries l).*1 = keys l.
Proof. unfold entries, keys. by rewrite <- list_fmap_compose. Qed.

Lemma Get_Some c key value :
  same_entries c →
  (Get c key).2 = Some value ↔ (key, value) ∈ entries (ls c).
Proof.
  intros Hse. rewrite Get_result, entries_elem_of. split.
  - destruct (table c !! key) as [e|] eqn:Hk; simpl; [|done].
    destruct (same_entries_find c key e Hse Hk) as (it & Hfind & Hkey).
    rewrite Hfind. simpl. intros [= <-].
    destruct (find_split _ _ _ Hfind) as (l1 & l2 & Hl & _).
    exists (mkElement e it). split; [|done].
    rewrite Hl. apply elem_of_app. right. left.
  - intros ([e it] & Hin & Hkey & Hval). simpl in *.
    assert (Hk : table c !! key = Some e).
    { apply same_entries_table; [done|]. by exists it. }
    rewrite Hk. simpl. destruct Hse as (Ha & _).
    rewrite (find_elem_of e (ls c) it Ha Hin). simpl. by rewrite Hval.
Qed.

Lemma Get_None c key :
  same_entries c → (Get c key).2 = None ↔ table c !! key = None.
Proof.
  intros Hse. rewrite Get_result.
  destruct (table c !! key) as [e|] eqn:Hk; simpl; [|done].
  destruct (same_entries_find c key e Hse Hk) as (it & -> & _). done.
Qed.

(** *** [Get] on a key that is present *)

Lemma Get_present_entry c key e :
  same_entries c → table c !! key = Some e →
  ∃ it l1 l2,
    item_key it = key ∧
    ls c = l1 ++ mkElement e it :: l2 ∧
    Get c key =
    ({| capacity := capacity c; size := size c;
        ls := l1 ++ l2 ++ [mkElement e it]; table := table c |},
     Some (item_value it)).
Proof.
  intros Hse Hk.
  destruct (same_entries_find c key e Hse Hk) as (it & Hfind & Hkey).
  destruct (find_split _ _ _ Hfind) as (l1 & l2 & Hl & Hl1).
  exists it, l1, l2. split; [done|]. split; [done|].
  by apply Get_present.
Qed.

(** X1: on a consistent cache, [Get] on a key that is present returns the
    stored value, leaves the table, the running total and the capacity as
    they are, and moves the entry to the newest position without changing
    the order of the other entries. *)
Theorem Get_hit c key e :
  same_entries c → table c !! key = Some e →
  ∃ it l1 l2,
    item_key it = key ∧
    ls c = l1 ++ mkElement e it :: l2 ∧
    Get c key =
    ({| capacity := capacity c; size := size c;
        ls := l1 ++ l2 ++ [mkElement e it]; table := table c |},
     Some (item_value it)).
Proof. apply Get_present_entry. Qed.

(** X2: on a consistent cache a second [Get] on the same key returns what
    the first returned and changes nothing more: the entry is already the
    newest. *)
Theorem Get_twice c key :
  same_entries c → Get (Get c key).1 key = ((Get c key).1, (Get c key).2).
Proof.
  intros Hse.
  destruct (table c !! key) as [e|] eqn:Hk.
  - destruct (Get_present_entry c key e Hse Hk) as (it & l1 & l2 & Hkey & Hl & HG).
    rewrite HG. simpl.
    destruct Hse as (Ha & _). rewrite Hl in Ha.
    rewrite fmap_app, fmap_cons in Ha.
    apply NoDup_app in Ha as (_ & Ha1 & Ha2). apply NoDup_cons in Ha2 as [Ha2 _].
    assert (He : e ∉ addr <$> l1 ++ l2).
    { rewrite fmap_app, not_elem_of_app. split; [|done].
      intros Hin. apply (Ha1 _ Hin). simpl. left. }
    etrans; [apply (Get_present _ key e (l1 ++ l2) [] it); simpl|].
    + done.
    + by rewrite app_assoc.
    + done.
    + simpl. by rewrite <- app_assoc.
  - rewrite (Get_absent c key Hk). simpl. by rewrite (Get_absent c key Hk).
Qed.

(** *** [List] and [Get] *)

(** X3: on a consistent cache, [List] shows each key once, and shows a key
    with a value exactly when [Get] on that key finds that value. *)
Theorem List_Get c key value :
  same_entries c →
  NoDup (List c).*1 ∧
  ((key, value) ∈ List c ↔ (Get c key).2 = Some value).
Proof.
  intros Hse. pose proof (List_entries c Hse) as HL. split.
  - rewrite HL, entries_keys. apply Hse.
  - by rewrite HL, Get_Some.
Qed.

(** *** The eviction pass *)

Lemma evict_loop_stops cap sz l tbl :
  (evict_loop cap sz l tbl).1.1 ≤ cap ∨ (evict_loop cap sz l tbl).1.2 = [].
Proof.
  revert sz tbl. induction l as [|x l IH]; intros sz tbl; simpl.
  - case_bool_decide; by right.
  - case_bool_decide; [apply IH|]. left. simpl. lia.
Qed.

Lemma evictLRU_empty c : ls c = [] → evictLRU c = c.
Proof.
  intros Hl. unfold evictLRU. rewrite Hl. simpl.
  destruct c as [cap sz l tbl]. simpl in *. subst l. by case_bool_decide.
Qed.

(** X4: the eviction pass ends with the running total within the capacity
    or with an empty list, and a second pass changes nothing. *)
Theorem evictLRU_idempotent c :
  (size (evictLRU c) ≤ capacity c ∨ ls (evictLRU c) = []) ∧
  evictLRU (evictLRU c) = evictLRU c.
Proof.
  assert (Hstop : size (evictLRU c) ≤ capacity (evictLRU c) ∨
                  ls (evictLRU c) = []).
  { pose proof (evict_loop_stops (capacity c) (size c) (ls c) (table c)) as Hs.
    unfold evictLRU.
    destruct (evict_loop _ _ _ _) as [[sz l] tbl]. simpl in *. done. }
  assert (Hcap : capacity (evictLRU c) = capacity c).
  { unfold evictLRU. by destruct (evict_loop _ _ _ _) as [[sz l] tbl]. }
  split; [by rewrite <- Hcap|].
  destruct Hstop as [Hle|Hnil].
  - by apply evictLRU_within.
  - by apply evictLRU_empty.
Qed.

Lemma evict_loop_over cap sz y l tbl :
  sz > cap →
  evict_loop cap sz (y :: l) tbl
  = evict_loop cap (wrap64 (sz - item_size (Value y))) l
      (delete (item_key (Value y)) tbl).
Proof. intros Hgt. simpl. by rewrite bool_decide_eq_true_2. Qed.

Lemma evict_loop_within cap sz l tbl :
  sz ≤ cap → evict_loop cap sz l tbl = (sz, l, tbl).
Proof.
  intros Hle. destruct l; simpl; by rewrite bool_decide_eq_false_2 by lia.
Qed.

Lemma evict_loop_order cap sz l tbl :
  sz = wrap64 (total l) →
  ∃ evicted,
    l = evicted ++ (evict_loop cap sz l tbl).1.2 ∧
    ∀ l0 x l1, evicted = l0 ++ x :: l1 →
      wrap64 (total (x :: l1 ++ (evict_loop cap sz l tbl).1.2)) > cap.
Proof.
  revert sz tbl. induction l as [|y l IH]; intros sz tbl ->.
  - exists []. split; [simpl; by case_bool_decide|].
    intros l0 x l1 Heq. by destruct l0.
  - destruct (decide (wrap64 (total (y :: l)) > cap)) as [Hgt|Hle].
    + rewrite evict_loop_over by done.
      destruct (IH (wrap64 (wrap64 (total (y :: l)) - item_size (Value y)))
                  (delete (item_key (Value y)) tbl))
        as (evicted & Hl & Hev).
      { rewrite wrap64_sub_l, total_cons. f_equal. lia. }
      exists (y :: evicted). split; [simpl; by rewrite <- Hl|].
      intros l0 x l1 Heq. destruct l0 as [|y' l0]; simpl in Heq.
      * injection Heq as <- <-. by rewrite <- Hl.
      * injection Heq as _ ->. by apply (Hev l0).
    + rewrite evict_loop_within by lia.
      exists []. split; [done|]. intros l0 x l1 Heq. by destruct l0.
Qed.

(** X5: on a consistent cache the eviction pass removes entries from the
    oldest end only.  The list before is the evicted entries followed by
    the list after; every evicted entry was removed when the running total
    of itself and all the newer entries, in [int64], exceeded the capacity;
    the keys of the evicted entries leave the table and the surviving
    entries keep their table entries. *)
Theorem evictLRU_oldest_first c :
  consistent c →
  ∃ evicted,
    ls c = evicted ++ ls (evictLRU c) ∧
    (∀ l0 x l1, evicted = l0 ++ x :: l1 →
       wrap64 (total (x :: l1 ++ ls (evictLRU c))) > capacity c) ∧
    (∀ x, x ∈ evicted → table (evictLRU c) !! item_key (Value x) = None) ∧
    (∀ x, x ∈ ls (evictLRU c) →
       table (evictLRU c) !! item_key (Value x) = Some (addr x) ∧
       table c !! item_key (Value x) = Some (addr x)).
Proof.
  intros Hc. pose proof Hc as [Hse Hsz].
  destruct (evictLRU_spec c Hc) as ([Hse' _] & _).
  destruct (evict_loop_order (capacity c) (size c) (ls c) (table c) Hsz)
    as (evicted & Hl & Hev).
  assert (Hls : (evict_loop (capacity c) (size c) (ls c) (table c)).1.2
                = ls (evictLRU c)).
  { unfold evictLRU. by destruct (evict_loop _ _ _ _) as [[sz l] tbl]. }
  rewrite Hls in Hl, Hev.
  exists evicted. split; [done|]. split; [done|]. split.
  - intros x Hx. destruct Hse' as (_ & _ & ->).
    apply index_of_lookup_None. destruct Hse as (_ & Hk & _).
    rewrite Hl in Hk. unfold keys in Hk. rewrite fmap_app in Hk.
    apply NoDup_app in Hk as (_ & Hk & _). apply Hk.
    apply list_elem_of_fmap. by exists x.
  - intros [e it] Hx. simpl. split.
    + apply same_entries_table; [done|]. by exists it.
    + apply same_entries_table; [done|]. exists it. split; [|done].
      rewrite Hl. apply elem_of_app. by right.
Qed.

(** *** The entries after [Put] *)

Lemma Put_entry_others c key value x :
  same_entries c → item_key (Value x) ≠ key →
  x ∈ ls (Put_entry c key value) ↔ x ∈ ls c.
Proof.
  intros Hse Hx.
  destruct (entry_cases c key Hse)
    as [(Hk & Hnew & _)|(e & it & l1 & l2 & Hk & Hkey & Hl & Hl1 & _)].
  - rewrite Put_entry_absent by done. simpl.
    rewrite elem_of_app, list_elem_of_singleton. split; [|by left].
    intros [?| ->]; [done|]. by destruct Hx.
  - rewrite (Put_entry_present _ _ _ _ _ _ _ Hk Hl Hl1). simpl.
    rewrite Hl, !elem_of_app, list_elem_of_singleton, elem_of_cons. split.
    + intros [?|[?| ->]]; [by left | by right; right|].
      simpl in Hx. by destruct Hx.
    + intros [?|[->|?]]; [by left | | by right; left].
      simpl in Hx. by destruct Hx.
Qed.

Lemma Put_entry_new c key value x :
  same_entries c → x ∈ ls (Put_entry c key value) →
  item_key (Value x) = key →
  Value x = lru.mkItem key value (cache.Size value).
Proof.
  intros Hse Hin Hx.
  destruct (entry_cases c key Hse)
    as [(Hk & Hnew & _)|(e & it & l1 & l2 & Hk & Hkey & Hl & Hl1 & _)].
  - rewrite Put_entry_absent in Hin by done. simpl in Hin.
    apply elem_of_app in Hin as [Hin| ->%list_elem_of_singleton]; [|done].
    destruct Hnew. unfold keys. apply list_elem_of_fmap. by exists x.
  - rewrite (Put_entry_present _ _ _ _ _ _ _ Hk Hl Hl1) in Hin. simpl in Hin.
    assert (Hnd : NoDup (keys (l1 ++ mkElement e it :: l2))).
    { destruct Hse as (_ & Hks & _). by rewrite Hl in Hks. }
    unfold keys in Hnd. rewrite fmap_app, fmap_cons in Hnd. simpl in Hnd.
    apply NoDup_app in Hnd as (_ & Hnd1 & Hnd2).
    apply NoDup_cons in Hnd2 as [Hnd2 _].
    rewrite !elem_of_app, list_elem_of_singleton in Hin.
    destruct Hin as [Hin|[Hin| ->]]; [| |by rewrite Hkey].
    + exfalso. apply (Hnd1 (item_key it)).
      * apply list_elem_of_fmap. exists x. split; [congruence | done].
      * left.
    + exfalso. apply Hnd2. apply list_elem_of_fmap. exists x.
      split; [congruence | done].
Qed.

Lemma Put_suffix c key value :
  consistent c → ls (Put c key value) `suffix_of` ls (Put_entry c key value).
Proof.
  intros Hc. unfold Put.
  by destruct (evictLRU_spec _ (Put_entry_consistent c key value Hc))
    as (_ & _ & Hsuf & _).
Qed.

Lemma suffix_elem_of {A} (l1 l2 : list A) x :
  l1 `suffix_of` l2 → x ∈ l1 → x ∈ l2.
Proof. intros [l0 ->] Hin. apply elem_of_app. by right. Qed.

(** *** [Put], then [Get] *)

Lemma evict_loop_keeps_last cap sz l tbl x :
  sz = wrap64 (total l) → last l = Some x →
  wrap64 (item_size (Value x)) ≤ cap →
  last (evict_loop cap sz l tbl).1.2 = Some x.
Proof.
  intros Hsz Hlast Hx. revert sz tbl Hsz.
  induction l as [|y l IH]; intros sz tbl ->; [done|].
  destruct l as [|z l].
  - simpl in Hlast. injection Hlast as ->.
    rewrite evict_loop_within; [done|].
    rewrite total_cons, total_nil, Z.add_0_r. done.
  - destruct (decide (wrap64 (total (y :: z :: l)) > cap)) as [Hgt|Hle].
    + rewrite evict_loop_over by done. apply IH; [done|].
      rewrite wrap64_sub_l, (total_cons y). f_equal. lia.
    + rewrite evict_loop_within by lia. done.
Qed.

(** X6: on a consistent cache, after [Put] of a value whose size does not
    exceed the capacity, the entry is the newest of the list and [Get] on
    the key finds the value, whatever else the eviction pass removed. *)
Theorem Put_Get c key value :
  consistent c → cache.Size value ≤ capacity c →
  (∃ e, last (ls (Put c key value))
        = Some (mkElement e (lru.mkItem key value (cache.Size value)))) ∧
  (Get (Put c key value) key).2 = Some value.
Proof.
  intros Hc Hfit.
  pose proof (Put_entry_consistent c key value Hc) as [Hse1 Hsz1].
  destruct (Put_entry_last c key value (proj1 Hc)) as (e & Hlast & _).
  set (x := mkElement e (lru.mkItem key value (cache.Size value))) in *.
  assert (Hl : last (ls (Put c key value)) = Some x).
  { pose proof (evict_loop_keeps_last (capacity (Put_entry c key value))
      (size (Put_entry c key value)) (ls (Put_entry c key value))
      (table (Put_entry c key value)) x Hsz1 Hlast) as Hkeep.
    unfold Put, evictLRU.
    destruct (evict_loop _ _ _ _) as [[sz l] tbl]. simpl in *.
    apply Hkeep. rewrite Put_entry_capacity.
    by rewrite wrap64_id by apply cache.Size_int64. }
  split; [by exists e|].
  apply Get_Some; [apply (Put_consistent c key value Hc)|].
  apply entries_elem_of. exists x. split; [|done].
  by apply last_Some_elem_of.
Qed.

(** *** [Put] and the other keys *)

(** X7: on a consistent cache, [Put] on a key never changes the value
    stored under another key: afterwards [Get] on the other key finds what
    it found before, or nothing when the entry was evicted; and it finds
    nothing that was not there. *)
Theorem Put_other_key c key value key' :
  consistent c → key' ≠ key →
  (Get (Put c key value) key').2 = (Get c key').2 ∨
  (Get (Put c key value) key').2 = None.
Proof.
  intros Hc Hne.
  destruct ((Get (Put c key value) key').2) as [v|] eqn:HG; [left|by right].
  symmetry. apply (Get_Some c key' v (proj1 Hc)).
  apply (Get_Some _ key' v (proj1 (Put_consistent c key value Hc))) in HG.
  apply entries_elem_of in HG as (x & Hin & Hkx & Hvx).
  apply entries_elem_of. exists x. split; [|done].
  apply (Put_entry_others c key value x (proj1 Hc)); [congruence|].
  by apply (suffix_elem_of _ _ _ (Put_suffix c key value Hc)).
Qed.

(** X8: on a consistent cache, a [Put] that leaves the running total, as
    [Put] computes it in [int64], within the capacity evicts nothing:
    [Get] on the key finds the new value and [Get] on any other key finds
    what it found before. *)
Theorem Put_within_capacity c key value :
  consistent c →
  wrap64 (size c + (cache.Size value - recorded_size c key)) ≤ capacity c →
  Put c key value = Put_entry c key value ∧
  (Get (Put c key value) key).2 = Some value ∧
  ∀ key', key' ≠ key → (Get (Put c key value) key').2 = (Get c key').2.
Proof.
  intros Hc Hfit.
  pose proof (Put_entry_consistent c key value Hc) as [Hse1 Hsz1].
  assert (HP : Put c key value = Put_entry c key value).
  { apply evictLRU_within.
    by rewrite Put_entry_size, Put_entry_capacity by apply Hc. }
  split; [done|]. rewrite HP. split.
  - apply Get_Some; [done|].
    destruct (Put_entry_last c key value (proj1 Hc)) as (e & Hlast & _).
    apply entries_elem_of.
    exists (mkElement e (lru.mkItem key value (cache.Size value))).
    split; [by apply last_Some_elem_of | done].
  - intros key' Hne. apply option_eq. intros v.
    rewrite !Get_Some by (done || apply Hc). rewrite !entries_elem_of.
    split; intros (x & Hin & Hkx & Hvx); exists x; (split; [|done]).
    + apply (Put_entry_others c key value x (proj1 Hc)); [congruence | done].
    + apply (Put_entry_others c key value x (proj1 Hc)); [congruence | done].
Qed.

(** *** Keys that were never stored *)

(** X9: entries come from [Put] only: on a consistent cache, a key that is
    absent stays absent, and [Get] does not find it, through any sequence
    of operations without a [Put] on that key. *)
Theorem absent_without_Put c key ops :
  consistent c → table c !! key = None →
  Forall (λ o, ¬ puts key o) ops →
  table (run c ops) !! key = None ∧ (Get (run c ops) key).2 = None.
Proof.
  intros Hc Hk Hops.
  assert (Hrun : consistent (run c ops) ∧ table (run c ops) !! key = None).
  { revert c Hc Hk. induction Hops as [|o ops Ho _ IH]; intros c Hc Hk; [done|].
    simpl. destruct o as [key' value|key']; simpl in *.
    - apply IH; [by apply Put_consistent|].
      pose proof (Put_consistent c key' value Hc) as [Hse2 _].
      destruct (table (Put c key' value) !! key) as [e|] eqn:Hk2; [|done].
      exfalso.
      apply (same_entries_table _ key e Hse2) in Hk2 as (it & Hin & Hkey).
      apply (suffix_elem_of _ _ _ (Put_suffix c key' value Hc)) in Hin.
      apply (Put_entry_others c key' value _ (proj1 Hc)) in Hin;
        [|simpl; congruence].
      assert (Hk' : table c !! key = Some e).
      { apply same_entries_table; [apply Hc|]. by exists it. }
      congruence.
    - apply IH; [by apply Get_consistent|].
      destruct (table c !! key') as [e|] eqn:Hk'.
      + destruct (Get_present_entry c key' e (proj1 Hc) Hk')
          as (it & l1 & l2 & _ & _ & ->). done.
      + by rewrite Get_absent. }
  destruct Hrun as [Hc' Hk']. split; [done|]. by apply Get_None; [apply Hc'|].
Qed.

(** *** The sizes that are recorded *)

(** X10: the size recorded with an entry is the size its value reports:
    [Put] and [Get] keep this on a consistent cache, through any sequence
    of operations. *)
Theorem sizes_recorded_run c ops :
  consistent c → sizes_recorded (ls c) → sizes_recorded (ls (run c ops)).
Proof.
  revert c. induction ops as [|o ops IH]; intros c Hc Hrec; [done|].
  simpl. destruct o as [key value|key]; simpl.
  - apply IH; [by apply Put_consistent|].
    unfold sizes_recorded in *. rewrite Forall_forall in *. intros x Hin.
    apply (suffix_elem_of _ _ _ (Put_suffix c key value Hc)) in Hin.
    destruct (decide (item_key (Value x) = key)) as [Hkx|Hkx].
    + by rewrite (Put_entry_new c key value x (proj1 Hc) Hin Hkx).
    + apply Hrec. by apply (Put_entry_others c key value x (proj1 Hc)).
  - apply IH; [by apply Get_consistent|].
    destruct (Get_spec c key (proj1 Hc)) as (_ & Hp & _).
    unfold sizes_recorded. by rewrite Hp.
Qed.

(** *** The most recently used entry *)

Lemma suffix_two {A} (s p : list A) x n :
  s `suffix_of` p ++ [x; n] → s = [] ∨ s = [n] ∨ x ∈ s.
Proof.
  destruct s as [|a s _] using rev_ind; [by left|]. intros Hsuf. right.
  change (p ++ [x; n]) with (p ++ [x] ++ [n]) in Hsuf.
  rewrite app_assoc in Hsuf.
  pose proof (suffix_snoc_inv_1 _ _ _ _ Hsuf) as ->.
  apply suffix_snoc_inv_2 in Hsuf.
  destruct s as [|b s _] using rev_ind; [by left|]. right.
  pose proof (suffix_snoc_inv_1 _ _ _ _ Hsuf) as ->.
  rewrite !elem_of_app, list_elem_of_singleton. left. by right.
Qed.

Lemma Put_entry_after_newest c key value p x :
  same_entries c → ls c = p ++ [x] → item_key (Value x) ≠ key →
  ∃ p' n, ls (Put_entry c key value) = p' ++ [x; n] ∧
          item_key (Value n) = key.
Proof.
  intros Hse Hp Hx.
  destruct (entry_cases c key Hse)
    as [(Hk & Hnew & _)|(e & it & l1 & l2 & Hk & Hkey & Hl & Hl1 & _)].
  - rewrite Put_entry_absent by done. simpl. rewrite Hp.
    eexists p, _. split; [by rewrite <- app_assoc | done].
  - rewrite (Put_entry_present _ _ _ _ _ _ _ Hk Hl Hl1). simpl.
    destruct l2 as [|z l2 _] using rev_ind.
    + rewrite Hl in Hp. apply app_inj_tail in Hp as [_ Hp].
      subst x. simpl in Hx. by destruct Hx.
    + rewrite Hl in Hp.
      change (l1 ++ mkElement e it :: l2 ++ [z])
        with (l1 ++ (mkElement e it :: l2) ++ [z]) in Hp.
      rewrite app_assoc in Hp. apply app_inj_tail in Hp as [_ ->].
      eexists (l1 ++ l2), _. split; [by rewrite <- !app_assoc | done].
Qed.

(** X11: the entry that was used last is the last to be evicted.  On a
    consistent cache, after a [Get] that finds the key [k], if a [Put] on
    another key evicts [k], then it has evicted every entry that was in the
    cache: [Get] finds no key but, possibly, the one just stored. *)
Theorem most_recent_evicted_last c k key value :
  consistent c → key ≠ k → (Get c k).2 ≠ None →
  (Get (Put (Get c k).1 key value) k).2 = None →
  ∀ k', k' ≠ key → (Get (Put (Get c k).1 key value) k').2 = None.
Proof.
  intros Hc Hne Hhit Hgone k' Hk'.
  pose proof (Get_consistent c k Hc) as Hc1.
  pose proof (Put_consistent (Get c k).1 key value Hc1) as Hc2.
  destruct (table c !! k) as [e|] eqn:Hk;
    [|by rewrite (Get_absent c k Hk) in Hhit].
  destruct (Get_present_entry c k e (proj1 Hc) Hk) as (it & l1 & l2 & Hkey & Hl & HG).
  assert (Hls1 : ls (Get c k).1 = (l1 ++ l2) ++ [mkElement e it]).
  { rewrite HG. simpl. by rewrite app_assoc. }
  destruct (Put_entry_after_newest (Get c k).1 key value _ _ (proj1 Hc1) Hls1)
    as (p' & n & Hls2 & Hn); [simpl; congruence|].
  pose proof (Put_suffix (Get c k).1 key value Hc1) as Hsuf.
  rewrite Hls2 in Hsuf.
  destruct ((Get (Put (Get c k).1 key value) k').2) as [v|] eqn:HG'; [|done].
  exfalso.
  apply (Get_Some _ k' v (proj1 Hc2)), entries_elem_of in HG'
    as (z & Hz & Hkz & _).
  destruct (suffix_two _ _ _ _ Hsuf) as [Hs|[Hs|Hs]].
  - rewrite Hs in Hz. by apply elem_of_nil in Hz.
  - rewrite Hs in Hz. apply list_elem_of_singleton in Hz as ->. congruence.
  - assert (HGk : (Get (Put (Get c k).1 key value) k).2
                  = Some (item_value it)).
    { apply (Get_Some _ k _ (proj1 Hc2)), entries_elem_of.
      by exists (mkElement e it). }
    congruence.
Qed.

End more.
End lru_more.

(** ** More on the Lazy-Expiry cache *)

Module ttlcache_more.
Import ttlcache ttlcache_facts.
Section more.
Context {V : Type}.
Implicit Types (c : TTLCache V) (it : item V) (key : string) (value : V)
  (o : op V) (ops : list (op V)).

Lemma ttl_Get_result c key now :
  (Get c key now).2
  = match table c !! key with
    | Some it => if expired it now then None else Some (value it)
    | None => None
    end.
Proof.
  unfold Get. destruct (table c !! key) as [it|]; [|done].
  by destruct (expired it now).
Qed.

Lemma ttl_Get_table c key now k :
  table (Get c key now).1 !! k
  = match table c !! k with
    | Some it => if bool_decide (k = key) && expired it now then None
                 else Some it
    | None => None
    end.
Proof.
  unfold Get. destruct (table c !! key) as [it|] eqn:Hk.
  - destruct (expired it now) eqn:He; simpl.
    + destruct (decide (k = key)) as [->|Hne].
      * by rewrite lookup_delete_eq, Hk, bool_decide_eq_true_2, He.
      * rewrite lookup_delete_ne by done.
        destruct (table c !! k); [|done].
        by rewrite bool_decide_eq_false_2.
    + destruct (table c !! k) as [it'|] eqn:Hk'; [|done].
      case_bool_decide as Heq; [|done]. subst k.
      rewrite Hk in Hk'. injection Hk' as <-. by rewrite He.
  - simpl. destruct (table c !! k) as [it'|] eqn:Hk'; [|done].
    case_bool_decide as Heq; [|done]. subst k. congruence.
Qed.

Lemma expired_mono it t1 t2 :
  t1 ≤ t2 → expired it t1 = true → expired it t2 = true.
Proof. rewrite !expired_true. lia. Qed.

(** *** [Put], then [Get] *)

(** X12: after [Put], [Get] on the key at time [t] finds the value exactly
    when the entry was stored without expiration ([ttl <= 0]), or its
    expiry [now + ttl] is not positive, which the cache reads as the
    never-expires marker, or [t] is not after the expiry; otherwise it
    finds nothing. *)
Theorem ttl_Put_Get c key value ttl now t :
  ((Get (Put c key value ttl now) key t).2 = Some value ↔
   ttl ≤ 0 ∨ now + ttl ≤ 0 ∨ t ≤ now + ttl) ∧
  ((Get (Put c key value ttl now) key t).2 = None ↔
   0 < ttl ∧ 0 < now + ttl ∧ now + ttl < t).
Proof.
  rewrite ttl_Get_result. unfold Put, deadline. simpl.
  rewrite lookup_insert_eq.
  destruct (expired _ t) eqn:He.
  - apply expired_true in He. simpl in He.
    case_bool_decide; split; split; try done; lia.
  - apply expired_false in He. simpl in He.
    case_bool_decide; split; split; try done; lia.
Qed.

(** *** [List] and [Get] *)

Lemma List_Get_agree c key value now :
  NoDup (List c now).2.*1 ∧
  ((key, value) ∈ (List c now).2 ↔ (Get c key now).2 = Some value).
Proof.
  split; [apply List_keys_NoDup|].
  rewrite List_elem_of, ttl_Get_result. split.
  - intros (it & -> & -> & ->). done.
  - destruct (table c !! key) as [it|]; [|done].
    destruct (expired it now) eqn:He; [done|].
    intros [= <-]. by exists it.
Qed.

(** X13: at any one time, [List] shows each key once, and shows a key with
    a value exactly when [Get] on that key finds that value. *)
Theorem ttl_List_Get c key value now :
  NoDup (List c now).2.*1 ∧
  ((key, value) ∈ (List c now).2 ↔ (Get c key now).2 = Some value).
Proof. apply List_Get_agree. Qed.

(** *** What the reads remove *)

Lemma read_tables c key now k :
  (table (Get c key now).1 !! k = table c !! k ∨
   k = key ∧ table (Get c key now).1 !! k = None ∧
   ∃ it, table c !! k = Some it ∧ 0 < expiry it < now) ∧
  (table (List c now).1 !! k = table c !! k ∨
   table (List c now).1 !! k = None ∧
   ∃ it, table c !! k = Some it ∧ 0 < expiry it < now).
Proof.
  rewrite ttl_Get_table, List_table.
  destruct (table c !! k) as [it|] eqn:Hk; [|split; by left].
  destruct (expired it now) eqn:He.
  - apply expired_true in He. split.
    + case_bool_decide; simpl; [|by left].
      right. split; [done|]. split; [done|]. by exists it.
    + right. split; [done|]. by exists it.
  - rewrite andb_false_r. split; by left.
Qed.

(** X14: a read never adds or changes an entry, removes every entry it
    finds expired and never removes one that has not expired.  A key that
    is absent stays absent.  For a key that is present, [Get] removes the
    entry exactly when it is the key asked for and its expiry is set
    (positive) and before the current time, and otherwise leaves it as it
    is; [List] removes the entry exactly when its expiry is set and before
    the current time, and otherwise leaves it as it is. *)
Theorem reads_remove_expired_only c key now k :
  (table c !! k = None →
   table (Get c key now).1 !! k = None ∧ table (List c now).1 !! k = None) ∧
  (∀ it, table c !! k = Some it →
     (k = key ∧ 0 < expiry it ∧ expiry it < now →
      table (Get c key now).1 !! k = None) ∧
     (k ≠ key ∨ expiry it ≤ 0 ∨ now ≤ expiry it →
      table (Get c key now).1 !! k = Some it) ∧
     (0 < expiry it ∧ expiry it < now →
      table (List c now).1 !! k = None) ∧
     (expiry it ≤ 0 ∨ now ≤ expiry it →
      table (List c now).1 !! k = Some it)).
Proof.
  rewrite ttl_Get_table, List_table. split.
  - by intros ->.
  - intros it ->. split; [|split; [|split]].
    + intros (-> & He). apply expired_true in He.
      by rewrite bool_decide_eq_true_2, He.
    + intros [Hne|He].
      * by rewrite bool_decide_eq_false_2.
      * apply expired_false in He. by rewrite He, andb_false_r.
    + intros He. apply expired_true in He. by rewrite He.
    + intros He. apply expired_false in He. by rewrite He.
Qed.

Lemma read_step_table c o t k :
  reads_until t o →
  table (step c o) !! k = table c !! k ∨
  table (step c o) !! k = None ∧
  ∃ it, table c !! k = Some it ∧ expired it t = true.
Proof.
  intros Ho.
  destruct o as [key value ttl now|key now|now]; simpl in *; [done| |].
  - destruct (read_tables c key now k)
      as [[Heq|(_ & Hnone & it & Hk & He)] _]; [by left|].
    right. split; [done|]. exists it. split; [done|].
    apply expired_true. lia.
  - destruct (read_tables c "" now k)
      as [_ [Heq|(Hnone & it & Hk & He)]]; [by left|].
    right. split; [done|]. exists it. split; [done|].
    apply expired_true. lia.
Qed.

Lemma read_step_Get c o t key :
  reads_until t o → (Get (step c o) key t).2 = (Get c key t).2.
Proof.
  intros Ho. rewrite !ttl_Get_result.
  destruct (read_step_table c o t key Ho) as [->|(-> & it & -> & ->)]; done.
Qed.

(** X15: the lazy removal cannot be observed.  After any sequence of reads
    ([Get] and [List]) at times not after [t], [Get] at time [t] returns
    what it would have returned without them, and [List] at time [t] shows
    the same entries. *)
Theorem reads_transparent c ops key value t :
  Forall (reads_until t) ops →
  (Get (run c ops) key t).2 = (Get c key t).2 ∧
  ((key, value) ∈ (List (run c ops) t).2 ↔ (key, value) ∈ (List c t).2).
Proof.
  intros Hops.
  assert (HG : (Get (run c ops) key t).2 = (Get c key t).2).
  { revert c. induction Hops as [|o ops Ho _ IH]; intros c; [done|].
    simpl. rewrite IH. by apply read_step_Get. }
  split; [done|].
  destruct (List_Get_agree (run c ops) key value t) as [_ ->].
  destruct (List_Get_agree c key value t) as [_ ->]. by rewrite HG.
Qed.

(** *** A miss is final *)

Lemma step_table_without_Put c o key :
  ¬ puts key o →
  table (step c o) !! key = table c !! key ∨
  table (step c o) !! key = None.
Proof.
  intros Ho. destruct o as [key' value ttl now|key' now|now]; simpl in *.
  - left. apply lookup_insert_ne. by intros ->.
  - destruct (read_tables c key' now key)
      as [[Heq|(_ & Hnone & _)] _]; [by left | by right].
  - destruct (read_tables c "" now key)
      as [_ [Heq|(Hnone & _)]]; [by left | by right].
Qed.

(** X16: an entry does not come back without a [Put]: when [Get] at time
    [t1] does not find a key (never stored, removed or expired), then after
    any sequence of operations without a [Put] on that key, at whatever
    times, [Get] at any time [t2] not before [t1] does not find it. *)
Theorem miss_is_final c key t1 t2 ops :
  (Get c key t1).2 = None → t1 ≤ t2 →
  Forall (λ o, ¬ puts key o) ops →
  (Get (run c ops) key t2).2 = None.
Proof.
  intros Hmiss Ht Hops. revert c Hmiss.
  induction Hops as [|o ops Ho _ IH]; intros c Hmiss.
  - simpl. rewrite ttl_Get_result in *.
    destruct (table c !! key) as [it|]; [|done].
    destruct (expired it t1) eqn:He; [|done].
    by rewrite (expired_mono it t1 t2 Ht He).
  - simpl. apply IH. rewrite ttl_Get_result in *.
    destruct (step_table_without_Put c o key Ho) as [-> | ->]; done.
Qed.

(** *** [List], twice *)

(** X17: a second [List] at the same time removes nothing more and shows
    the same entries. *)
Theorem List_twice c now :
  table (List (List c now).1 now).1 = table (List c now).1 ∧
  (List (List c now).1 now).2 ≡ₚ (List c now).2.
Proof.
  assert (Ht : ∀ k, table (List (List c now).1 now).1 !! k
                    = table (List c now).1 !! k).
  { intros k. rewrite (List_table (List c now).1), List_table.
    destruct (table c !! k) as [it|]; [|done].
    destruct (expired it now) eqn:He; [done|]. by rewrite He. }
  split; [by apply map_eq|].
  apply NoDup_Permutation.
  - eapply NoDup_fmap_1, List_keys_NoDup.
  - eapply NoDup_fmap_1, List_keys_NoDup.
  - intros [k v]. rewrite !List_elem_of. rewrite List_table.
    split.
    + intros (it & Hk & -> & He). exists it.
      destruct (table c !! k) as [it'|]; [|done].
      destruct (expired it' now); [done|]. by injection Hk as ->.
    + intros (it & Hk & -> & He). exists it. by rewrite Hk, He.
Qed.

End more.
End ttlcache_more.

(** ** Instances of the further properties *)

Module lru_more_examples.
Import container_list lru lru_facts lru_more.

Lemma Get_hit_witness :
  same_entries two8 ∧ table two8 !! "a" = Some 1%nat ∧
  ∃ it l1 l2,
    item_key it = "a" ∧
    ls two8 = l1 ++ mkElement 1%nat it :: l2 ∧
    Get two8 "a" =
    ({| capacity := capacity two8; size := size two8;
        ls := l1 ++ l2 ++ [mkElement 1%nat it]; table := table two8 |},
     Some (item_value it)).
Proof.
  assert (H1 : same_entries two8) by evaluate.
  assert (H2 : table two8 !! "a" = Some 1%nat) by (vm_compute; reflexivity).
  split; [exact H1|]. split; [exact H2|].
  exact (Get_hit two8 "a" 1%nat H1 H2).
Defined.

Lemma Get_twice_witness :
  same_entries two8 ∧
  Get (Get two8 "a").1 "a" = ((Get two8 "a").1, (Get two8 "a").2).
Proof.
  assert (H1 : same_entries two8) by evaluate.
  split; [exact H1|]. exact (Get_twice two8 "a" H1).
Defined.

Lemma List_Get_witness :
  same_entries two8 ∧
  NoDup (List two8).*1 ∧
  (("a", blob 8) ∈ List two8 ↔ (Get two8 "a").2 = Some (blob 8)).
Proof.
  assert (H1 : same_entries two8) by evaluate.
  split; [exact H1|]. exact (List_Get two8 "a" (blob 8) H1).
Defined.

Lemma evictLRU_oldest_first_witness :
  consistent three8 ∧
  ∃ evicted,
    ls three8 = evicted ++ ls (evictLRU three8) ∧
    (∀ l0 x l1, evicted = l0 ++ x :: l1 →
       wrap64 (total (x :: l1 ++ ls (evictLRU three8))) > capacity three8) ∧
    (∀ x, x ∈ evicted →
       table (evictLRU three8) !! item_key (Value x) = None) ∧
    (∀ x, x ∈ ls (evictLRU three8) →
       table (evictLRU three8) !! item_key (Value x) = Some (addr x) ∧
       table three8 !! item_key (Value x) = Some (addr x)).
Proof.
  assert (H1 : consistent three8) by evaluate.
  split; [exact H1|]. exact (evictLRU_oldest_first three8 H1).
Defined.

Lemma Put_Get_witness :
  consistent two8 ∧ cache.Size (blob 8) ≤ capacity two8 ∧
  (∃ e, last (ls (Put two8 "c" (blob 8)))
        = Some (mkElement e (lru.mkItem "c" (blob 8) (cache.Size (blob 8))))) ∧
  (Get (Put two8 "c" (blob 8)) "c").2 = Some (blob 8).
Proof.
  assert (H1 : consistent two8) by evaluate.
  assert (H2 : cache.Size (blob 8) ≤ capacity two8)
    by (vm_compute; discriminate).
  split; [exact H1|]. split; [exact H2|].
  exact (Put_Get two8 "c" (blob 8) H1 H2).
Defined.

Lemma Put_other_key_witness :
  consistent two8 ∧ "a" ≠ "c" ∧
  ((Get (Put two8 "c" (blob 8)) "a").2 = (Get two8 "a").2 ∨
   (Get (Put two8 "c" (blob 8)) "a").2 = None).
Proof.
  assert (H1 : consistent two8) by evaluate.
  assert (H2 : "a" ≠ "c") by discriminate.
  split; [exact H1|]. split; [exact H2|].
  exact (Put_other_key two8 "c" (blob 8) "a" H1 H2).
Defined.

Lemma Put_within_capacity_witness :
  consistent two8 ∧
  wrap64 (size two8 + (cache.Size (blob 4) - recorded_size two8 "a"))
  ≤ capacity two8 ∧
  Put two8 "a" (blob 4) = Put_entry two8 "a" (blob 4) ∧
  (Get (Put two8 "a" (blob 4)) "a").2 = Some (blob 4) ∧
  ∀ key', key' ≠ "a" →
    (Get (Put two8 "a" (blob 4)) key').2 = (Get two8 key').2.
Proof.
  assert (H1 : consistent two8) by evaluate.
  assert (H2 : wrap64 (size two8
                       + (cache.Size (blob 4) - recorded_size two8 "a"))
               ≤ capacity two8) by (vm_compute; discriminate).
  split; [exact H1|]. split; [exact H2|].
  exact (Put_within_capacity two8 "a" (blob 4) H1 H2).
Defined.

Lemma absent_without_Put_witness :
  consistent two8 ∧ table two8 !! "z" = None ∧
  Forall (λ o, ¬ puts "z" o) ops8 ∧
  table (run two8 ops8) !! "z" = None ∧ (Get (run two8 ops8) "z").2 = None.
Proof.
  assert (H1 : consistent two8) by evaluate.
  assert (H2 : table two8 !! "z" = None) by (vm_compute; reflexivity).
  assert (H3 : Forall (λ o, ¬ puts "z" o) ops8).
  { repeat apply Forall_cons_2; try apply Forall_nil_2; simpl;
      intros H; (exact H || discriminate H). }
  split; [exact H1|]. split; [exact H2|]. split; [exact H3|].
  exact (absent_without_Put two8 "z" ops8 H1 H2 H3).
Defined.

Lemma sizes_recorded_run_witness :
  consistent two8 ∧ sizes_recorded (ls two8) ∧
  sizes_recorded (ls (run two8 ops8)).
Proof.
  assert (H1 : consistent two8) by evaluate.
  assert (H2 : sizes_recorded (ls two8)).
  { repeat apply Forall_cons_2; try apply Forall_nil_2; vm_compute;
      reflexivity. }
  split; [exact H1|]. split; [exact H2|].
  exact (sizes_recorded_run two8 ops8 H1 H2).
Defined.

Lemma most_recent_evicted_last_witness :
  consistent two8 ∧ "c" ≠ "a" ∧ (Get two8 "a").2 ≠ None ∧
  (Get (Put (Get two8 "a").1 "c" (blob 17)) "a").2 = None ∧
  ∀ k', k' ≠ "c" → (Get (Put (Get two8 "a").1 "c" (blob 17)) k').2 = None.
Proof.
  assert (H1 : consistent two8) by evaluate.
  assert (H2 : "c" ≠ "a") by discriminate.
  assert (H3 : (Get two8 "a").2 ≠ None) by (vm_compute; discriminate).
  assert (H4 : (Get (Put (Get two8 "a").1 "c" (blob 17)) "a").2 = None)
    by (vm_compute; reflexivity).
  split; [exact H1|]. split; [exact H2|]. split; [exact H3|].
  split; [exact H4|].
  exact (most_recent_evicted_last two8 "a" "c" (blob 17) H1 H2 H3 H4).
Defined.

End lru_more_examples.

Module ttlcache_more_examples.
Import ttlcache ttlcache_facts ttlcache_more.

Lemma reads_transparent_witness :
  Forall (reads_until 7000000000) reads ∧
  (Get (run (demo_ttl 1000) reads) "k2" 7000000000).2
  = (Get (demo_ttl 1000) "k2" 7000000000).2 ∧
  (("k2", IntVal 222) ∈ (List (run (demo_ttl 1000) reads) 7000000000).2 ↔
   ("k2", IntVal 222) ∈ (List (demo_ttl 1000) 7000000000).2).
Proof.
  assert (H1 : Forall (reads_until 7000000000) reads).
  { repeat apply Forall_cons_2; try apply Forall_nil_2; vm_compute;
      discriminate. }
  split; [exact H1|].
  exact (reads_transparent (demo_ttl 1000) reads "k2" (IntVal 222)
           7000000000 H1).
Defined.

Lemma miss_is_final_witness :
  (Get (demo_ttl 1000) "k1" 6000000000).2 = None ∧
  6000000000 ≤ 9000000000 ∧
  Forall (λ o, ¬ puts "k1" o) no_Put_k1 ∧
  (Get (run (demo_ttl 1000) no_Put_k1) "k1" 9000000000).2 = None.
Proof.
  assert (H1 : (Get (demo_ttl 1000) "k1" 6000000000).2 = None)
    by (vm_compute; reflexivity).
  assert (H2 : 6000000000 ≤ 9000000000) by lia.
  assert (H3 : Forall (λ o, ¬ puts "k1" o) no_Put_k1).
  { repeat apply Forall_cons_2; try apply Forall_nil_2; simpl;
      intros H; (exact H || discriminate H). }
  split; [exact H1|]. split; [exact H2|]. split; [exact H3|].
  exact (miss_is_final (demo_ttl 1000) "k1" 6000000000 9000000000
           no_Put_k1 H1 H2 H3).
Defined.

End ttlcache_more_examples.
